(** * Layout reconstruction of a PDF page: a shallow embedding

    The development embeds the layout parser (layoutParser.ts: toPositioned,
    groupIntoLines, segmentIntoBlocks, tryExtractTable, tableBlockToElement,
    paraBlockToElements, buildDocElements, elementsToText) and the page
    assembly loop of ocrProcessor.ts (processPdfClientSide).

    Modelling choices.
    - A JS number that holds a page coordinate is an integer of [Z] with exact
      arithmetic (no NaN, no infinity, no rounding).  Lengths and indices are
      [nat].
    - A JS string is a [string] of 8-bit characters, read as the code points
      U+0000 to U+00FF; strings with other code points are outside the model.
      On these strings [trim] and [/[A-Z]/] are the built-ins; [toUpperCase]
      is the built-in except on U+00B5 and U+00FF (see [JsString]).
    - The module constants (ROW_TOLERANCE, ...) are the fields of a record
      [Config]; [defaultConfig] holds the values of the source.
    - The [while] loop of segmentIntoBlocks runs on fuel; running out of fuel
      is [None], and the totality lemmas show it never happens when
      MIN_TABLE_ROWS is positive. *)

From Stdlib Require Import String Ascii ZArith Bool Arith Lia List.
From Stdlib Require Import Sorting.Sorted Sorting.Permutation.
Import ListNotations.

Local Open Scope string_scope.
Local Open Scope list_scope.
Local Open Scope Z_scope.

(* ------------------------------------------------------------------ *)
(** ** JS built-ins on strings *)

Module JsString.

(** The WhiteSpace and LineTerminator code points up to U+00FF:
    TAB, LF, VT, FF, CR, SPACE and NO-BREAK SPACE (U+00A0). *)
Definition isWhiteSpace (c : ascii) : bool :=
  let n := nat_of_ascii c in
  ((9 <=? n) && (n <=? 13) || (n =? 32) || (n =? 160))%nat.

Fixpoint trimStart (s : string) : string :=
  match s with
  | EmptyString => EmptyString
  | String c r => if isWhiteSpace c then trimStart r else s
  end.

Fixpoint trimEnd (s : string) : string :=
  match s with
  | EmptyString => EmptyString
  | String c r =>
      match trimEnd r with
      | EmptyString => if isWhiteSpace c then EmptyString else String c EmptyString
      | r' => String c r'
      end
  end.

(** String.prototype.trim *)
Definition trim (s : string) : string := trimEnd (trimStart s).

Definition isLowerAZ (c : ascii) : bool :=
  let n := nat_of_ascii c in ((97 <=? n) && (n <=? 122))%nat.

Definition isUpperAZ (c : ascii) : bool :=
  let n := nat_of_ascii c in ((65 <=? n) && (n <=? 90))%nat.

(** The lower-case letters U+00E0 to U+00FE (U+00F7, the division sign, is
    not one), whose upper-case forms lie 32 below. *)
Definition isLowerLatin1 (c : ascii) : bool :=
  let n := nat_of_ascii c in
  ((224 <=? n) && (n <=? 254) && negb (n =? 247))%nat.

Definition upperChar (c : ascii) : ascii :=
  if isLowerAZ c || isLowerLatin1 c
  then ascii_of_nat (nat_of_ascii c - 32) else c.

(** The upper-case form of one character: U+00DF (sharp s) becomes SS.  The
    upper-case forms of U+00B5 and U+00FF lie above U+00FF and cannot be
    written in an 8-bit string: these two characters are left unchanged, and
    the statements about upper-casing are made for ASCII text. *)
Definition upperString (c : ascii) : string :=
  if (nat_of_ascii c =? 223)%nat then "SS"
  else String (upperChar c) EmptyString.

(** String.prototype.toUpperCase *)
Fixpoint toUpperCase (s : string) : string :=
  match s with
  | EmptyString => EmptyString
  | String c r => (upperString c ++ toUpperCase r)%string
  end.

(** [/[A-Z]/.test(s)] *)
Fixpoint testAZ (s : string) : bool :=
  match s with
  | EmptyString => false
  | String c r => isUpperAZ c || testAZ r
  end.

(** A string is truthy iff it is not empty. *)
Definition truthy (s : string) : bool :=
  match s with EmptyString => false | _ => true end.

Fixpoint splitLoop (sep : ascii) (s cur : string) : list string :=
  match s with
  | EmptyString => [cur]
  | String c r =>
      if Ascii.eqb c sep then cur :: splitLoop sep r EmptyString
      else splitLoop sep r (cur ++ String c EmptyString)%string
  end.

(** String.prototype.split with a one-character separator *)
Definition split (sep : ascii) (s : string) : list string :=
  splitLoop sep s EmptyString.

Fixpoint joinLoop (sep : string) (l : list string) (k : nat) (R : string)
  : string :=
  match l with
  | [] => R
  | s :: r =>
      joinLoop sep r (S k)
        ((if (0 <? k)%nat then R ++ sep else R) ++ s)%string
  end.

(** Array.prototype.join on an array of strings *)
Definition join (sep : string) (l : list string) : string :=
  joinLoop sep l 0%nat EmptyString.

Definition LF : ascii := ascii_of_nat 10.
Definition TAB : ascii := ascii_of_nat 9.
Definition newline : string := String LF EmptyString.
Definition tab : string := String TAB EmptyString.

End JsString.

(* ------------------------------------------------------------------ *)
(** ** JS built-ins on arrays *)

Module JsArray.
Section Generic.
Context {A : Type}.

(** [a[a.length - 1]]: the last element, or undefined. *)
Fixpoint lastOpt (l : list A) : option A :=
  match l with
  | [] => None
  | [a] => Some a
  | _ :: r => lastOpt r
  end.

(** Insertion of [a] into a list sorted for [cmp]: [a] goes before the
    first element [b] with [cmp a b <= 0]. *)
Fixpoint insert (cmp : A -> A -> Z) (a : A) (l : list A) : list A :=
  match l with
  | [] => [a]
  | b :: r => if cmp a b <=? 0 then a :: l else b :: insert cmp a r
  end.

(** Array.prototype.sort with a comparator: a stable sort. *)
Fixpoint sort (cmp : A -> A -> Z) (l : list A) : list A :=
  match l with
  | [] => []
  | a :: r => insert cmp a (sort cmp r)
  end.

(** [a[i] = v]: replaces in range, extends the array out of range
    (the holes in between are filled with [hole]). *)
Fixpoint set (hole : A) (l : list A) (i : nat) (v : A) : list A :=
  match l, i with
  | [], O => [v]
  | [], S i' => hole :: set hole [] i' v
  | _ :: r, O => v :: r
  | a :: r, S i' => a :: set hole r i' v
  end.
End Generic.
End JsArray.

(* ------------------------------------------------------------------ *)
(** ** Tuning knobs *)

Record Config := mkConfig {
  ROW_TOLERANCE : Z;
  COL_TOLERANCE : Z;
  MIN_TABLE_COLS : nat;
  MIN_TABLE_ROWS : nat;
  HEADING_MAX_LEN : nat
}.

Definition defaultConfig : Config :=
  {| ROW_TOLERANCE := 4;
     COL_TOLERANCE := 18;
     MIN_TABLE_COLS := 2;
     MIN_TABLE_ROWS := 2;
     HEADING_MAX_LEN := 80 |}.

(* ------------------------------------------------------------------ *)
(** ** Types *)

(** The transform of a pdfjs TextItem,
    [scaleX, skewX, skewY, scaleY, translateX, translateY];
    [transform[4]] is [translateX] and [transform[5]] is [translateY]. *)
Record Transform := mkTransform {
  scaleX : Z; skewX : Z; skewY : Z; scaleY : Z; translateX : Z; translateY : Z
}.

Module TextItem.
Record t := mk {
  str : string;
  transform : Transform;
  width : Z;
  height : Z;
  fontName : string
}.
End TextItem.

(** An element of [textContent.items]: a TextItem, or a TextMarkedContent
    (the only one with a [type] property). *)
Inductive RawItem :=
| Text (item : TextItem.t)
| MarkedContent (type : string).

Module PositionedItem.
Record t := mk {
  str : string;
  x : Z;
  y : Z;
  width : Z;
  height : Z;
  fontName : string
}.
End PositionedItem.

Module LineGroup.
Record t := mk {
  y : Z;
  items : list PositionedItem.t
}.
End LineGroup.

Inductive Block :=
| TableBlock (lines : list LineGroup.t)
| ParaBlock (lines : list LineGroup.t).

Definition blockLines (b : Block) : list LineGroup.t :=
  match b with TableBlock ls => ls | ParaBlock ls => ls end.

Inductive DocElement :=
| paragraph (text : string) (isHeading : bool)
| table (rows : list (list string)) (colCount : nat)
| pageBreak.


(* ------------------------------------------------------------------ *)
(** ** The layout parser *)

Section LayoutParser.

Variable cfg : Config.

(** *** Helpers *)

Fixpoint mergeLoop (sorted : list Z) (buckets : list Z) : list Z :=
  match sorted with
  | [] => buckets
  | x :: rest =>
      match JsArray.lastOpt buckets with
      | None => mergeLoop rest (buckets ++ [x])
      | Some last =>
          if COL_TOLERANCE cfg <? x - last
          then mergeLoop rest (buckets ++ [x])
          else mergeLoop rest buckets
      end
  end.

Definition mergeColumnBuckets (xValues : list Z) : list Z :=
  let sorted := JsArray.sort (fun a b => a - b) xValues in
  mergeLoop sorted [].

(** The [for] loop of nearestBucket, from index [i] on [rest]. *)
Fixpoint nearestLoop (x : Z) (rest : list Z) (i : nat) (best : nat)
  (bestDist : Z) : nat :=
  match rest with
  | [] => best
  | b :: rest' =>
      let d := Z.abs (x - b) in
      if d <? bestDist then nearestLoop x rest' (S i) i d
      else nearestLoop x rest' (S i) best bestDist
  end.

(** On an empty [buckets], [buckets[0]] is undefined, the loop does not run
    and the result is 0. *)
Definition nearestBucket (x : Z) (buckets : list Z) : nat :=
  match buckets with
  | [] => 0%nat
  | b0 :: rest => nearestLoop x rest 1%nat 0%nat (Z.abs (x - b0))
  end.

Definition isHeadingText (text : string) : bool :=
  let t := JsString.trim text in
  (0 <? String.length t)%nat &&
  (String.length t <? HEADING_MAX_LEN cfg)%nat &&
  String.eqb t (JsString.toUpperCase t) &&
  JsString.testAZ t.

(** *** Step 1: pdfjs TextItems to PositionedItems *)

Fixpoint toPositionedLoop (items : list RawItem) (pageHeight : Z)
  (result : list PositionedItem.t) : list PositionedItem.t :=
  match items with
  | [] => result
  | MarkedContent _ :: rest => toPositionedLoop rest pageHeight result
  | Text item :: rest =>
      if negb (JsString.truthy (JsString.trim (TextItem.str item)))
      then toPositionedLoop rest pageHeight result
      else
        let x := translateX (TextItem.transform item) in
        let yPdf := translateY (TextItem.transform item) in
        let y := pageHeight - yPdf - Z.abs (TextItem.height item) in
        toPositionedLoop rest pageHeight
          (result ++
             [ {| PositionedItem.str := TextItem.str item;
                  PositionedItem.x := x;
                  PositionedItem.y := y;
                  PositionedItem.width := TextItem.width item;
                  PositionedItem.height := Z.abs (TextItem.height item);
                  PositionedItem.fontName := TextItem.fontName item |} ])
  end.

Definition toPositioned (items : list RawItem) (pageHeight : Z)
  : list PositionedItem.t :=
  toPositionedLoop items pageHeight [].

(** *** Step 2: group items into horizontal lines *)

Definition byX (a b : PositionedItem.t) : Z :=
  PositionedItem.x a - PositionedItem.x b.

Definition byY (a b : PositionedItem.t) : Z :=
  PositionedItem.y a - PositionedItem.y b.

Definition closeLine (currentY : Z) (currentLine : list PositionedItem.t)
  : LineGroup.t :=
  {| LineGroup.y := currentY;
     LineGroup.items := JsArray.sort byX currentLine |}.

Fixpoint groupLoop (rest : list PositionedItem.t) (lines : list LineGroup.t)
  (currentLine : list PositionedItem.t) (currentY : Z) : list LineGroup.t :=
  match rest with
  | [] => lines ++ [closeLine currentY currentLine]
  | item :: rest' =>
      if Z.abs (PositionedItem.y item - currentY) <=? ROW_TOLERANCE cfg
      then groupLoop rest' lines (currentLine ++ [item]) currentY
      else groupLoop rest' (lines ++ [closeLine currentY currentLine])
             [item] (PositionedItem.y item)
  end.

Definition groupIntoLines (items : list PositionedItem.t)
  : list LineGroup.t :=
  if (length items =? 0)%nat then []
  else
    match JsArray.sort byY items with
    | [] => []
    | first :: rest => groupLoop rest [] [first] (PositionedItem.y first)
    end.

(** *** Step 3: segment lines into table blocks and paragraph blocks *)

Definition lineXs (line : LineGroup.t) : list Z :=
  map PositionedItem.x (LineGroup.items line).

Definition aligned (colBuckets : list Z) (x : Z) : bool :=
  existsb (fun b => Z.abs (x - b) <=? COL_TOLERANCE cfg) colBuckets.

(** The [for] loop of tryExtractTable over [lines[i..]]; [break] returns the
    lines accepted so far. *)
Fixpoint extractLoop (rest : list LineGroup.t) (tableLines : list LineGroup.t)
  (colBuckets : list Z) : list LineGroup.t :=
  match rest with
  | [] => tableLines
  | line :: rest' =>
      if (length (LineGroup.items line) <? MIN_TABLE_COLS cfg)%nat
      then tableLines
      else if (length colBuckets =? 0)%nat then
        let colBuckets' := mergeColumnBuckets (lineXs line) in
        if (length colBuckets' <? MIN_TABLE_COLS cfg)%nat then tableLines
        else extractLoop rest' (tableLines ++ [line]) colBuckets'
      else
        let matched := filter (aligned colBuckets) (lineXs line) in
        if (length matched <? MIN_TABLE_COLS cfg)%nat then tableLines
        else
          let combined := mergeColumnBuckets (colBuckets ++ lineXs line) in
          extractLoop rest' (tableLines ++ [line]) combined
  end.

Definition tryExtractTable (lines : list LineGroup.t) (start : nat)
  : option (list LineGroup.t) :=
  if (length lines <=? start)%nat then None
  else
    let tableLines := extractLoop (skipn start lines) [] [] in
    if (MIN_TABLE_ROWS cfg <=? length tableLines)%nat
    then Some tableLines else None.

(** The [while] loop of segmentIntoBlocks; [None] when the fuel runs out,
    or on a read of [lines[i]] out of range (which the loop guard excludes). *)
Fixpoint segmentLoop (fuel : nat) (lines : list LineGroup.t) (i : nat)
  (blocks : list Block) : option (list Block) :=
  if (length lines <=? i)%nat then Some blocks
  else
    match fuel with
    | O => None
    | S fuel' =>
        let para :=
          match nth_error lines i with
          | Some line =>
              segmentLoop fuel' lines (S i) (blocks ++ [ParaBlock [line]])
          | None => None
          end in
        match tryExtractTable lines i with
        | Some tableLines =>
            if (MIN_TABLE_ROWS cfg <=? length tableLines)%nat
            then segmentLoop fuel' lines (i + length tableLines)
                   (blocks ++ [TableBlock tableLines])
            else para
        | None => para
        end
    end.

Definition segmentIntoBlocks (lines : list LineGroup.t)
  : option (list Block) :=
  segmentLoop (length lines) lines 0 [].

(** *** Step 4: blocks to DocElements *)

Definition placeItem (colBuckets : list Z) (cells : list string)
  (item : PositionedItem.t) : list string :=
  let col := nearestBucket (PositionedItem.x item) colBuckets in
  let old := nth col cells EmptyString in
  JsArray.set EmptyString cells col
    (if JsString.truthy old
     then (old ++ " " ++ PositionedItem.str item)%string
     else PositionedItem.str item).

Definition tableRow (colBuckets : list Z) (colCount : nat)
  (line : LineGroup.t) : list string :=
  fold_left (placeItem colBuckets) (LineGroup.items line)
    (repeat EmptyString colCount).

Definition tableBlockToElement (lines : list LineGroup.t) : DocElement :=
  let allXs := flat_map lineXs lines in
  let colBuckets := mergeColumnBuckets allXs in
  let colCount := length colBuckets in
  let rows := map (tableRow colBuckets colCount) lines in
  table rows colCount.

Definition paraBlockToElements (lines : list LineGroup.t)
  : list DocElement :=
  map (fun line =>
         let text :=
           JsString.trim
             (JsString.join " " (map PositionedItem.str (LineGroup.items line))) in
         paragraph text (isHeadingText text))
      lines.

(** *** Public API *)

Fixpoint emitBlocks (blocks : list Block) (elements : list DocElement)
  : list DocElement :=
  match blocks with
  | [] => elements
  | TableBlock ls :: rest =>
      emitBlocks rest (elements ++ [tableBlockToElement ls])
  | ParaBlock ls :: rest =>
      emitBlocks rest (elements ++ paraBlockToElements ls)
  end.

Definition buildDocElements (items : list RawItem) (pageHeight : Z)
  : option (list DocElement) :=
  let positioned := toPositioned items pageHeight in
  if (length positioned =? 0)%nat then Some []
  else
    let lines := groupIntoLines positioned in
    match segmentIntoBlocks lines with
    | Some blocks => Some (emitBlocks blocks [])
    | None => None
    end.

Definition renderElement (el : DocElement) : string :=
  match el with
  | pageBreak => "--- Page Break ---"
  | paragraph text _ => text
  | table rows _ =>
      JsString.join JsString.newline (map (JsString.join JsString.tab) rows)
  end.

Definition elementsToText (elements : list DocElement) : string :=
  JsString.join JsString.newline (map renderElement elements).

End LayoutParser.

(* ------------------------------------------------------------------ *)
(** ** Page assembly (ocrProcessor.ts) *)

(** What the loop of processPdfClientSide reads for one page: the items of
    [page.getTextContent()], the height [viewport.viewBox[3]], and the text
    that the OCR worker recognizes on the rendering of the page (read only
    when the page is treated as scanned). *)
Module Page.
Record t := mk {
  items : list RawItem;
  pageHeight : Z;
  ocrText : string
}.
End Page.

Module OcrResult.
Record t := mk {
  elements : list DocElement;
  text : string;
  pageCount : nat;
  usedOcr : bool
}.
End OcrResult.

Definition TEXT_THRESHOLD : nat := 30.

Section PageAssembly.

Variable cfg : Config.

Definition textStrs (items : list RawItem) : list string :=
  flat_map (fun it => match it with
                      | Text item => [TextItem.str item]
                      | MarkedContent _ => []
                      end) items.

Definition embeddedRaw (items : list RawItem) : string :=
  JsString.trim (JsString.join EmptyString (textStrs items)).

Definition ocrLines (ocrText : string) : list string :=
  filter JsString.truthy
    (map JsString.trim (JsString.split JsString.LF ocrText)).

Definition ocrParagraph (line : string) : DocElement :=
  paragraph line
    ((0 <? String.length line)%nat &&
     (String.length line <? 80)%nat &&
     String.eqb line (JsString.toUpperCase line) &&
     JsString.testAZ line).

(** The [for] loop over the pages, [pageNum] being the number of the first
    page of [pages]. *)
Fixpoint pageLoop (pages : list Page.t) (pageNum : nat)
  (allElements : list DocElement) (usedOcr : bool)
  : option (list DocElement * bool) :=
  match pages with
  | [] => Some (allElements, usedOcr)
  | page :: rest =>
      let allElements1 :=
        if (1 <? pageNum)%nat then allElements ++ [pageBreak]
        else allElements in
      if (TEXT_THRESHOLD <=? String.length (embeddedRaw (Page.items page)))%nat
      then
        match buildDocElements cfg (Page.items page) (Page.pageHeight page) with
        | Some pageElements =>
            pageLoop rest (S pageNum) (allElements1 ++ pageElements) usedOcr
        | None => None
        end
      else
        pageLoop rest (S pageNum)
          (allElements1 ++ map ocrParagraph (ocrLines (Page.ocrText page)))
          true
  end.

Definition processPdfClientSide (pages : list Page.t) : option OcrResult.t :=
  let totalPages := length pages in
  match pageLoop pages 1 [] false with
  | Some (allElements, usedOcr) =>
      Some {| OcrResult.elements := allElements;
              OcrResult.text := elementsToText allElements;
              OcrResult.pageCount := totalPages;
              OcrResult.usedOcr := usedOcr |}
  | None => None
  end.

End PageAssembly.

(* ------------------------------------------------------------------ *)
(** ** Vocabulary of the statements *)

(** The elements one block contributes in the loop of buildDocElements. *)
Definition blockElements (cfg : Config) (b : Block) : list DocElement :=
  match b with
  | TableBlock ls => [tableBlockToElement cfg ls]
  | ParaBlock ls => paraBlockToElements cfg ls
  end.

(** The shape of a table element: enough columns, enough rows, and a
    rectangular grid. *)
Definition tableShape (cfg : Config) (el : DocElement) : Prop :=
  match el with
  | table rows colCount =>
      (MIN_TABLE_COLS cfg <= colCount)%nat /\
      (MIN_TABLE_ROWS cfg <= length rows)%nat /\
      Forall (fun row => length row = colCount) rows
  | _ => True
  end.

Definition isPageBreak (el : DocElement) : bool :=
  match el with pageBreak => true | _ => false end.

(** Consecutive values of [ys] grow by more than [tol]. *)
Fixpoint gapped (tol : Z) (ys : list Z) : Prop :=
  match ys with
  | a :: r =>
      match r with
      | b :: _ => tol < b - a
      | [] => True
      end /\ gapped tol r
  | [] => True
  end.

(** The glyph runs of an items array: the markers are dropped. *)
Definition glyphRuns (items : list RawItem) : list TextItem.t :=
  flat_map (fun raw => match raw with
                       | Text item => [item]
                       | MarkedContent _ => []
                       end) items.

(** A run is kept when its text is not empty after stripping whitespace. *)
Definition nonBlank (item : TextItem.t) : bool :=
  negb (String.eqb (JsString.trim (TextItem.str item)) EmptyString).

(** The top-down position of a kept run on a page of height [H]. *)
Definition positionRun (H : Z) (item : TextItem.t) : PositionedItem.t :=
  {| PositionedItem.str := TextItem.str item;
     PositionedItem.x := translateX (TextItem.transform item);
     PositionedItem.y :=
       H - translateY (TextItem.transform item) - Z.abs (TextItem.height item);
     PositionedItem.width := TextItem.width item;
     PositionedItem.height := Z.abs (TextItem.height item);
     PositionedItem.fontName := TextItem.fontName item |}.

(** The one error kind the specification names for the core. *)
Inductive CoreError := MalformedInput.

(** How a call completes: it returns a value or it throws. *)
Inductive Completion (A : Type) :=
| Returned (value : A)
| Raised (error : CoreError).

Arguments Returned {A} value.
Arguments Raised {A} error.

(** A call of buildDocElements.  Neither its body nor the functions it calls
    hold a [throw], and pageHeight is only read as an operand of a
    subtraction in toPositioned: whenever the call ends it returns. *)
Definition callBuildDocElements (cfg : Config) (items : list RawItem)
  (pageHeight : Z) : option (Completion (list DocElement)) :=
  match buildDocElements cfg items pageHeight with
  | Some els => Some (Returned els)
  | None => None
  end.

(** One flag per line, in order: is the line part of a table block? *)
Definition lineKinds (blocks : list Block) : list bool :=
  flat_map (fun b => match b with
                     | TableBlock ls => map (fun _ => true) ls
                     | ParaBlock ls => map (fun _ => false) ls
                     end) blocks.

(** [cfg'] is [cfg] with MIN_TABLE_ROWS and MIN_TABLE_COLS raised (or kept),
    the other constants fixed. *)
Definition raised (cfg cfg' : Config) : Prop :=
  ROW_TOLERANCE cfg' = ROW_TOLERANCE cfg /\
  COL_TOLERANCE cfg' = COL_TOLERANCE cfg /\
  HEADING_MAX_LEN cfg' = HEADING_MAX_LEN cfg /\
  (MIN_TABLE_COLS cfg <= MIN_TABLE_COLS cfg')%nat /\
  (MIN_TABLE_ROWS cfg <= MIN_TABLE_ROWS cfg')%nat.

(** Every line in a table block under [cfg'] is in a table block under
    [cfg]. *)
Definition tablesOnlyShrink (cfg cfg' : Config) (lines : list LineGroup.t)
  : Prop :=
  forall blocks blocks',
    segmentIntoBlocks cfg lines = Some blocks ->
    segmentIntoBlocks cfg' lines = Some blocks' ->
    forall i, nth i (lineKinds blocks') false = true ->
              nth i (lineKinds blocks) false = true.

Definition threeRowsConfig : Config :=
  {| ROW_TOLERANCE := 4;
     COL_TOLERANCE := 18;
     MIN_TABLE_COLS := 2;
     MIN_TABLE_ROWS := 3;
     HEADING_MAX_LEN := 80 |}.

Definition cell (x y : Z) (s : string) : PositionedItem.t :=
  {| PositionedItem.str := s;
     PositionedItem.x := x;
     PositionedItem.y := y;
     PositionedItem.width := 5;
     PositionedItem.height := 10;
     PositionedItem.fontName := "g_d0_f1" |}.

(** Four lines of two items each, with left edges 0/100, 10/110, 28/128 and
    0/100. *)
Definition lineA : LineGroup.t :=
  {| LineGroup.y := 10; LineGroup.items := [cell 0 10 "a1"; cell 100 10 "a2"] |}.
Definition lineB : LineGroup.t :=
  {| LineGroup.y := 30; LineGroup.items := [cell 10 30 "b1"; cell 110 30 "b2"] |}.
Definition lineC : LineGroup.t :=
  {| LineGroup.y := 50; LineGroup.items := [cell 28 50 "c1"; cell 128 50 "c2"] |}.
Definition lineD : LineGroup.t :=
  {| LineGroup.y := 70; LineGroup.items := [cell 0 70 "d1"; cell 100 70 "d2"] |}.

Definition fourLines : list LineGroup.t := [lineA; lineB; lineC; lineD].

(** Two rows of two positioned items, given bottom row first. *)
Definition gridItems : list PositionedItem.t :=
  [cell 50 30 "C"; cell 150 30 "D"; cell 150 10 "B"; cell 50 10 "A"].
Definition rowAB : LineGroup.t :=
  {| LineGroup.y := 10; LineGroup.items := [cell 50 10 "A"; cell 150 10 "B"] |}.
Definition rowCD : LineGroup.t :=
  {| LineGroup.y := 30; LineGroup.items := [cell 50 30 "C"; cell 150 30 "D"] |}.

Definition glyph (x yPdf : Z) (s : string) : RawItem :=
  Text {| TextItem.str := s;
          TextItem.transform := mkTransform 1 0 0 1 x yPdf;
          TextItem.width := 5;
          TextItem.height := 10;
          TextItem.fontName := "g_d0_f1" |}.

(** Every character of the string is whitespace. *)
Fixpoint allWhite (s : string) : bool :=
  match s with
  | EmptyString => true
  | String c r => JsString.isWhiteSpace c && allWhite r
  end.

(** The branch test of the page loop: the page is treated as digital. *)
Definition isDigital (page : Page.t) : bool :=
  (TEXT_THRESHOLD <=? String.length (embeddedRaw (Page.items page)))%nat.

(** A scanned page on which the OCR text has no non-blank line. *)
Definition blankScan (page : Page.t) : bool :=
  negb (isDigital page) &&
  (length (ocrLines (Page.ocrText page)) =? 0)%nat.

(** The elements one page appends after its optional pageBreak. *)
Definition pageContribution (cfg : Config) (page : Page.t)
  : option (list DocElement) :=
  if isDigital page
  then buildDocElements cfg (Page.items page) (Page.pageHeight page)
  else Some (map ocrParagraph (ocrLines (Page.ocrText page))).

(** The assembled list for pages numbered from [pageNum] on. *)
Fixpoint interleave (pageNum : nat) (contribs : list (list DocElement))
  : list DocElement :=
  match contribs with
  | [] => []
  | c :: cs =>
      (if (1 <? pageNum)%nat then [pageBreak] else [])
        ++ c ++ interleave (S pageNum) cs
  end.

Definition countBreaks (els : list DocElement) : nat :=
  length (filter isPageBreak els).

Definition scannedPage (ocrText : string) : Page.t :=
  {| Page.items := []; Page.pageHeight := 842; Page.ocrText := ocrText |}.

(* ------------------------------------------------------------------ *)
(** ** Word document generation (conversion.ts) *)

(** The objects handed to the docx library, as records of the options each
    constructor receives; an option left out (or given as undefined) is
    [None]. *)

Inductive HeadingLevel := HEADING_1.
Inductive AlignmentType := LEFT.
Inductive VerticalAlign := CENTER.
Inductive BorderStyle := SINGLE.

Module Border.
Record t := mk {
  style : BorderStyle;
  size : nat;
  color : string
}.
End Border.

Definition CELL_BORDER : Border.t :=
  {| Border.style := SINGLE; Border.size := 4; Border.color := "AAAAAA" |}.

Module TextRun.
Record t := mk {
  text : string;
  bold : option bool;
  size : option nat;
  font : option string
}.
End TextRun.

Module Paragraph.
Record t := mk {
  pageBreakBefore : option bool;
  heading : option HeadingLevel;
  alignment : option AlignmentType;
  children : list TextRun.t;
  spacingBefore : option nat;
  spacingAfter : option nat
}.
End Paragraph.

(** [widthSize] is [Math.floor(100 / colCount)] as a percentage; [None]
    stands for the Infinity that a colCount of 0 gives. *)
Module TableCell.
Record t := mk {
  verticalAlign : VerticalAlign;
  borderTop : Border.t;
  borderBottom : Border.t;
  borderLeft : Border.t;
  borderRight : Border.t;
  widthSize : option nat;
  children : list Paragraph.t
}.
End TableCell.

Module TableRow.
Record t := mk {
  children : list TableCell.t
}.
End TableRow.

Module Table.
Record t := mk {
  widthSize : nat;
  rows : list TableRow.t
}.
End Table.

Inductive DocChild :=
| ParagraphChild (p : Paragraph.t)
| TableChild (t : Table.t).

Definition cellWidth (colCount : nat) : option nat :=
  if (colCount =? 0)%nat then None else Some (100 / colCount)%nat.

Definition buildCell (colCount : nat) (cellText : string) : TableCell.t :=
  {| TableCell.verticalAlign := CENTER;
     TableCell.borderTop := CELL_BORDER;
     TableCell.borderBottom := CELL_BORDER;
     TableCell.borderLeft := CELL_BORDER;
     TableCell.borderRight := CELL_BORDER;
     TableCell.widthSize := cellWidth colCount;
     TableCell.children :=
       [ {| Paragraph.pageBreakBefore := None;
            Paragraph.heading := None;
            Paragraph.alignment := Some LEFT;
            Paragraph.children :=
              [ {| TextRun.text := JsString.trim cellText;
                   TextRun.bold := None;
                   TextRun.size := Some 20%nat;
                   TextRun.font := Some "Calibri" |} ];
            Paragraph.spacingBefore := None;
            Paragraph.spacingAfter := None |} ] |}.

Definition buildTable (rows : list (list string)) (colCount : nat) : Table.t :=
  let docxRows :=
    map (fun rowCells =>
           {| TableRow.children := map (buildCell colCount) rowCells |}) rows in
  {| Table.widthSize := 100; Table.rows := docxRows |}.

Definition pageBreakParagraph : Paragraph.t :=
  {| Paragraph.pageBreakBefore := Some true;
     Paragraph.heading := None;
     Paragraph.alignment := None;
     Paragraph.children := [];
     Paragraph.spacingBefore := None;
     Paragraph.spacingAfter := None |}.

Definition spacerRun : TextRun.t :=
  {| TextRun.text := EmptyString;
     TextRun.bold := None;
     TextRun.size := None;
     TextRun.font := None |}.

(** A body or heading paragraph, [after] being the spacing after it. *)
Definition textParagraph (text : string) (isHeading : bool) (after : nat)
  : Paragraph.t :=
  {| Paragraph.pageBreakBefore := None;
     Paragraph.heading := if isHeading then Some HEADING_1 else None;
     Paragraph.alignment := None;
     Paragraph.children :=
       [ {| TextRun.text := text;
            TextRun.bold := Some isHeading;
            TextRun.size := Some (if isHeading then 28 else 22)%nat;
            TextRun.font := Some "Calibri" |} ];
     Paragraph.spacingBefore := None;
     Paragraph.spacingAfter := Some after |}.

(** The [for] loop of buildDocChildren. *)
Fixpoint buildDocChildrenLoop (elements : list DocElement)
  (children : list DocChild) : list DocChild :=
  match elements with
  | [] => children
  | pageBreak :: rest =>
      buildDocChildrenLoop rest
        (children ++ [ParagraphChild pageBreakParagraph])
  | table rows colCount :: rest =>
      buildDocChildrenLoop rest
        (((children
           ++ [ParagraphChild
                 {| Paragraph.pageBreakBefore := None;
                    Paragraph.heading := None;
                    Paragraph.alignment := None;
                    Paragraph.children := [spacerRun];
                    Paragraph.spacingBefore := Some 80%nat;
                    Paragraph.spacingAfter := None |}])
          ++ [TableChild (buildTable rows colCount)])
         ++ [ParagraphChild
               {| Paragraph.pageBreakBefore := None;
                  Paragraph.heading := None;
                  Paragraph.alignment := None;
                  Paragraph.children := [spacerRun];
                  Paragraph.spacingBefore := None;
                  Paragraph.spacingAfter := Some 80%nat |}])
  | paragraph elText isHeading :: rest =>
      let text := JsString.trim elText in
      if negb (JsString.truthy text)
      then buildDocChildrenLoop rest children
      else buildDocChildrenLoop rest
             (children ++ [ParagraphChild (textParagraph text isHeading 100)])
  end.

Definition buildDocChildren (elements : list DocElement) : list DocChild :=
  buildDocChildrenLoop elements [].

Definition PAGE_BREAK_LINE : string := "--- Page Break ---".

Definition buildFallbackChildren (text : string) : list DocChild :=
  map (fun line =>
         let trimmed := JsString.trim line in
         if String.eqb trimmed PAGE_BREAK_LINE
         then ParagraphChild pageBreakParagraph
         else
           let isHeading :=
             (0 <? String.length trimmed)%nat &&
             (String.length trimmed <? 80)%nat &&
             String.eqb trimmed (JsString.toUpperCase trimmed) &&
             JsString.testAZ trimmed in
           ParagraphChild (textParagraph trimmed isHeading 100))
      (JsString.split JsString.LF text).

(** The children of the document that generateWordDocument builds;
    [fallbackText ?? ""] reads a missing text as the empty string. *)
Definition generateWordDocumentChildren (elements : list DocElement)
  (fallbackText : option string) : list DocChild :=
  if (0 <? length elements)%nat
  then buildDocChildren elements
  else buildFallbackChildren
         (match fallbackText with Some t => t | None => EmptyString end).

(* ------------------------------------------------------------------ *)
(** ** The text-only pipeline (the earlier ocrProcessor.ts and
    generateWordDocument) *)

Module Legacy.

(** [textContent.items.map(item => "str" in item ? item.str : "")] *)
Definition itemStrs (items : list RawItem) : list string :=
  map (fun it => match it with
                 | Text item => TextItem.str item
                 | MarkedContent _ => EmptyString
                 end) items.

(** [pageTexts.map((t, i) => i === 0 ? t : `--- Page Break ---\n${t}`)],
    from index [i] on. *)
Fixpoint markPages (pageTexts : list string) (i : nat) : list string :=
  match pageTexts with
  | [] => []
  | t :: rest =>
      (if (i =? 0)%nat then t
       else ("--- Page Break ---" ++ JsString.newline ++ t)%string)
        :: markPages rest (S i)
  end.

Definition fullText (pageTexts : list string) : string :=
  JsString.join (JsString.newline ++ JsString.newline)%string
    (markPages pageTexts 0).

Module OcrResult.
Record t := mk {
  text : string;
  pageCount : nat;
  usedOcr : bool
}.
End OcrResult.

(** The [for] loop over the pages. *)
Fixpoint pageTextsLoop (pages : list Page.t) (pageTexts : list string)
  (usedOcr : bool) : list string * bool :=
  match pages with
  | [] => (pageTexts, usedOcr)
  | page :: rest =>
      let embeddedText :=
        JsString.trim (JsString.join " " (itemStrs (Page.items page))) in
      if (TEXT_THRESHOLD <=? String.length embeddedText)%nat
      then pageTextsLoop rest (pageTexts ++ [embeddedText]) usedOcr
      else pageTextsLoop rest
             (pageTexts ++ [JsString.trim (Page.ocrText page)]) true
  end.

Definition processPdfClientSide (pages : list Page.t) : OcrResult.t :=
  let totalPages := length pages in
  let (pageTexts, usedOcr) := pageTextsLoop pages [] false in
  {| OcrResult.text := fullText pageTexts;
     OcrResult.pageCount := totalPages;
     OcrResult.usedOcr := usedOcr |}.

(** The [for] loop of the text-based generateWordDocument. *)
Fixpoint paragraphsLoop (lines : list string) (paragraphs : list Paragraph.t)
  : list Paragraph.t :=
  match lines with
  | [] => paragraphs
  | line :: rest =>
      let trimmed := JsString.trim line in
      if String.eqb trimmed "--- Page Break ---"
      then paragraphsLoop rest (paragraphs ++ [pageBreakParagraph])
      else
        let isHeading :=
          (0 <? String.length trimmed)%nat &&
          (String.length trimmed <? 80)%nat &&
          String.eqb trimmed (JsString.toUpperCase trimmed) &&
          JsString.testAZ trimmed in
        paragraphsLoop rest
          (paragraphs ++ [textParagraph trimmed isHeading 120])
  end.

(** The paragraphs of the document that the text-based generateWordDocument
    builds. *)
Definition generateWordDocumentParagraphs (text : string)
  : list Paragraph.t :=
  paragraphsLoop (JsString.split JsString.LF text) [].

End Legacy.

(* ------------------------------------------------------------------ *)
(** ** Session history ids (Index page) *)

Module Session.

(** The item stored under SESSION_KEY: missing, a text that JSON.parse
    rejects, or the JSON text of an array of ids (the only thing
    addSessionId writes). *)
Inductive Stored :=
| Missing
| Unparsable
| IdsJson (ids : list string).

(** [JSON.parse(sessionStorage.getItem(SESSION_KEY) ?? "[]")], and [[]] when
    the parse throws. *)
Definition getSessionIds (st : Stored) : list string :=
  match st with
  | Missing => []
  | Unparsable => []
  | IdsJson ids => ids
  end.

(** [ids.unshift(id)], then the first 20 are stored. *)
Definition addSessionId (id : string) (st : Stored) : Stored :=
  let ids := getSessionIds st in
  let ids := id :: ids in
  IdsJson (firstn 20 ids).

End Session.

(* ------------------------------------------------------------------ *)
(** ** More vocabulary *)

Definition isBreakParagraph (p : Paragraph.t) : bool :=
  match Paragraph.pageBreakBefore p with Some true => true | _ => false end.

Definition isBreakChild (c : DocChild) : bool :=
  match c with
  | ParagraphChild p => isBreakParagraph p
  | TableChild _ => false
  end.

Definition isTableElement (el : DocElement) : bool :=
  match el with table _ _ => true | _ => false end.

Definition isParagraphElement (el : DocElement) : bool :=
  match el with paragraph _ _ => true | _ => false end.

(** The number of input lines an element renders. *)
Definition renderedLines (el : DocElement) : nat :=
  match el with
  | table rows _ => length rows
  | paragraph _ _ => 1
  | pageBreak => 0
  end.

(** The string holds no line feed. *)
Fixpoint noLF (s : string) : bool :=
  match s with
  | EmptyString => true
  | String c r => negb (Ascii.eqb c JsString.LF) && noLF r
  end.

(** The heading test that ocrProcessor.ts and the fallback path inline. *)
Definition headingTest (s : string) : bool :=
  (0 <? String.length s)%nat &&
  (String.length s <? 80)%nat &&
  String.eqb s (JsString.toUpperCase s) &&
  JsString.testAZ s.

(** An element that the text serialization renders as one line which reads
    back as the same element: a pageBreak, or a paragraph whose text is not
    empty, trimmed, on one line, not the page-break line, and whose heading
    flag is the inlined heading test. *)
Definition plainElement (el : DocElement) : Prop :=
  match el with
  | pageBreak => True
  | paragraph text isHeading =>
      text <> EmptyString /\
      JsString.trim text = text /\
      noLF text = true /\
      text <> PAGE_BREAK_LINE /\
      isHeading = headingTest text
  | table _ _ => False
  end.

(** The shapes of the blocks of segmentIntoBlocks. *)
Definition blockShape (cfg : Config) (b : Block) : Prop :=
  match b with
  | TableBlock ls =>
      (MIN_TABLE_ROWS cfg <= length ls)%nat /\
      Forall (fun l => (MIN_TABLE_COLS cfg <= length (LineGroup.items l))%nat) ls
  | ParaBlock ls => length ls = 1%nat
  end.

(** A well-formed line of groupIntoLines. *)
Definition lineShape (cfg : Config) (line : LineGroup.t) : Prop :=
  LineGroup.items line <> [] /\
  StronglySorted (fun a b => PositionedItem.x a <= PositionedItem.x b)
    (LineGroup.items line) /\
  Forall (fun it => LineGroup.y line <= PositionedItem.y it
                    <= LineGroup.y line + ROW_TOLERANCE cfg)
    (LineGroup.items line).

(** The text one page contributes in the text-only pipeline. *)
Definition legacyPageText (page : Page.t) : string :=
  let embeddedText :=
    JsString.trim (JsString.join " " (Legacy.itemStrs (Page.items page))) in
  if (TEXT_THRESHOLD <=? String.length embeddedText)%nat
  then embeddedText
  else JsString.trim (Page.ocrText page).

(** Lines of a page text that read as the page-break line. *)
Definition sentinelLines (text : string) : nat :=
  length (filter (fun line => String.eqb (JsString.trim line) PAGE_BREAK_LINE)
            (JsString.split JsString.LF text)).

(** The string does not start with whitespace. *)
Definition noLeadingWhite (s : string) : Prop :=
  match s with
  | EmptyString => True
  | String c _ => JsString.isWhiteSpace c = false
  end.

(** The children that one element adds in the loop of buildDocChildren. *)
Definition elementChildren (el : DocElement) : list DocChild :=
  match el with
  | pageBreak => [ParagraphChild pageBreakParagraph]
  | table rows colCount =>
      [ParagraphChild
         {| Paragraph.pageBreakBefore := None;
            Paragraph.heading := None;
            Paragraph.alignment := None;
            Paragraph.children := [spacerRun];
            Paragraph.spacingBefore := Some 80%nat;
            Paragraph.spacingAfter := None |};
       TableChild (buildTable rows colCount);
       ParagraphChild
         {| Paragraph.pageBreakBefore := None;
            Paragraph.heading := None;
            Paragraph.alignment := None;
            Paragraph.children := [spacerRun];
            Paragraph.spacingBefore := None;
            Paragraph.spacingAfter := Some 80%nat |}]
  | paragraph elText isHeading =>
      if negb (JsString.truthy (JsString.trim elText)) then []
      else [ParagraphChild (textParagraph (JsString.trim elText) isHeading 100)]
  end.

(** The line of the fallback path for one line of text. *)
Definition fallbackChild (line : string) : DocChild :=
  if String.eqb (JsString.trim line) PAGE_BREAK_LINE
  then ParagraphChild pageBreakParagraph
  else ParagraphChild
         (textParagraph (JsString.trim line) (headingTest (JsString.trim line))
            100).

(** The cells of a docx row take no more than the whole width, and one more
    percent each would take more. *)
Definition rowFits (colCount : nat) (row : TableRow.t) : Prop :=
  length (TableRow.children row) = colCount /\
  Forall (fun c => exists w, TableCell.widthSize c = Some w /\
                             (colCount * w <= 100 < colCount * (w + 1))%nat)
    (TableRow.children row).

(** The anchors of the grid of two rows. *)
Definition gridAnchors : list Z := [50; 150].

(* ------------------------------------------------------------------ *)
(** ** Whitespace and padding, stated without the built-ins *)

(** The WhiteSpace and LineTerminator code points up to U+00FF, listed:
    TAB, LF, VT, FF, CR, SPACE, NO-BREAK SPACE. *)
Definition whiteCodes : list nat := [9; 10; 11; 12; 13; 32; 160]%nat.

Definition isWhiteCode (c : ascii) : bool :=
  existsb (Nat.eqb (nat_of_ascii c)) whiteCodes.

(** A text that is empty after stripping whitespace: every character of it
    is a whitespace character. *)
Definition blankText (s : string) : bool :=
  forallb isWhiteCode (list_ascii_of_string s).






(** NO-BREAK SPACE and LATIN SMALL LETTER E WITH ACUTE, as one-character
    strings. *)
Definition NBSP : string := String (ascii_of_nat 160) EmptyString.

(** A run with a negative height, as some fonts give. *)
Definition flippedRun : RawItem :=
  Text {| TextItem.str := " a b ";
          TextItem.transform := mkTransform 1 0 0 (-1) 20 700;
          TextItem.width := 30;
          TextItem.height := -12;
          TextItem.fontName := "g_d0_f2" |}.

(* ------------------------------------------------------------------ *)
(** * Properties *)

(** ** Sorting *)

Section SortFacts.

Context {A : Type}.
Variable cmp : A -> A -> Z.

Lemma insert_perm (a : A) (l : list A) :
  Permutation (JsArray.insert cmp a l) (a :: l).
Proof.
  induction l as [|b r IH]; simpl.
  - apply Permutation_refl.
  - destruct (cmp a b <=? 0).
    + apply Permutation_refl.
    + eapply perm_trans; [apply perm_skip, IH | apply perm_swap].
Qed.

Lemma sort_perm (l : list A) : Permutation (JsArray.sort cmp l) l.
Proof.
  induction l as [|a r IH]; simpl.
  - apply perm_nil.
  - eapply perm_trans; [apply insert_perm | apply perm_skip, IH].
Qed.

Lemma sort_In (l : list A) (a : A) : In a (JsArray.sort cmp l) <-> In a l.
Proof.
  split; apply Permutation_in;
    [apply sort_perm | apply Permutation_sym, sort_perm].
Qed.

Lemma sort_length (l : list A) : length (JsArray.sort cmp l) = length l.
Proof. apply Permutation_length, sort_perm. Qed.

End SortFacts.

Section SortByKey.

Context {A : Type}.
Variable key : A -> Z.

Lemma insert_sorted (a : A) (l : list A) :
  StronglySorted (fun u v => key u <= key v) l ->
  StronglySorted (fun u v => key u <= key v)
    (JsArray.insert (fun u v => key u - key v) a l).
Proof.
  induction 1 as [|b r Hr IH Hb]; simpl.
  - constructor; constructor.
  - destruct (Z.leb_spec (key a - key b) 0) as [Hle|Hgt].
    + constructor.
      * constructor; assumption.
      * constructor.
        -- lia.
        -- eapply Forall_impl; [|exact Hb]. simpl; intros; lia.
    + constructor; [exact IH|].
      eapply Permutation_Forall; [apply Permutation_sym, insert_perm|].
      constructor; [lia | exact Hb].
Qed.

Lemma sort_sorted (l : list A) :
  StronglySorted (fun u v => key u <= key v)
    (JsArray.sort (fun u v => key u - key v) l).
Proof.
  induction l as [|a r IH]; simpl.
  - constructor.
  - apply insert_sorted, IH.
Qed.

End SortByKey.

Lemma sort_numeric_sorted (l : list Z) :
  StronglySorted Z.le (JsArray.sort (fun a b => a - b) l).
Proof. exact (sort_sorted (fun z => z) l). Qed.

Lemma sort_byY_sorted (l : list PositionedItem.t) :
  StronglySorted (fun a b => PositionedItem.y a <= PositionedItem.y b)
    (JsArray.sort byY l).
Proof. exact (sort_sorted PositionedItem.y l). Qed.

(** ** Column buckets *)

Section BucketFacts.

Variable cfg : Config.

Lemma lastOpt_snoc {A : Type} (l : list A) (a : A) :
  JsArray.lastOpt (l ++ [a]) = Some a.
Proof.
  induction l as [|b r IH]; simpl; [reflexivity|].
  rewrite IH. destruct r; reflexivity.
Qed.

Lemma mergeLoop_length_ge (s bs : list Z) :
  (length bs <= length (mergeLoop cfg s bs))%nat.
Proof.
  revert bs. induction s as [|x r IH]; intros bs; simpl; [lia|].
  destruct (JsArray.lastOpt bs) as [last|].
  - destruct (COL_TOLERANCE cfg <? x - last).
    + specialize (IH (bs ++ [x])). rewrite length_app in IH. simpl in IH. lia.
    + apply IH.
  - specialize (IH (bs ++ [x])). rewrite length_app in IH. simpl in IH. lia.
Qed.

(** A value farther than the tolerance from the last anchor opens a bucket. *)
Lemma mergeLoop_grows (s bs : list Z) (last b : Z) :
  JsArray.lastOpt bs = Some last ->
  In b s -> COL_TOLERANCE cfg < b - last ->
  (length bs < length (mergeLoop cfg s bs))%nat.
Proof.
  revert bs. induction s as [|x r IH]; intros bs Hlast Hin Hfar; simpl.
  - destruct Hin.
  - rewrite Hlast.
    destruct (Z.ltb_spec (COL_TOLERANCE cfg) (x - last)) as [Hx|Hx].
    + pose proof (mergeLoop_length_ge r (bs ++ [x])) as H.
      rewrite length_app in H. simpl in H. lia.
    + destruct Hin as [->|Hin]; [lia|]. apply IH; assumption.
Qed.

Lemma mergeColumnBuckets_two (xs : list Z) (a b : Z) :
  0 <= COL_TOLERANCE cfg ->
  In a xs -> In b xs -> COL_TOLERANCE cfg < b - a ->
  (2 <= length (mergeColumnBuckets cfg xs))%nat.
Proof.
  intros Htol Ha Hb Hfar. unfold mergeColumnBuckets.
  pose proof (sort_numeric_sorted xs) as Hs.
  apply (sort_In (fun u v => u - v)) in Ha, Hb.
  destruct (JsArray.sort (fun u v => u - v) xs) as [|h r]; [destruct Ha|].
  apply StronglySorted_inv in Hs. destruct Hs as [_ Hh].
  rewrite Forall_forall in Hh.
  assert (Hah : h <= a) by (destruct Ha as [->|Ha]; [lia | apply Hh, Ha]).
  simpl.
  assert (Hbr : In b r) by (destruct Hb as [->|Hb]; [lia | exact Hb]).
  pose proof (mergeLoop_grows r [h] h b eq_refl Hbr ltac:(lia)) as H.
  simpl in H. lia.
Qed.

(** Two buckets can only come from two values farther apart than the
    tolerance. *)
Lemma mergeLoop_two_inv (s bs : list Z) (U : Z -> Prop) :
  (length bs <= 1)%nat ->
  (forall z, In z bs -> U z) -> (forall z, In z s -> U z) ->
  (2 <= length (mergeLoop cfg s bs))%nat ->
  exists a b, U a /\ U b /\ COL_TOLERANCE cfg < b - a.
Proof.
  revert bs. induction s as [|x r IH]; intros bs Hlen Hbs Hs Hout; simpl in Hout.
  - lia.
  - destruct bs as [|l [|l' bs']]; simpl in Hout, Hlen; [| |lia].
    + apply (IH [x]).
      * simpl; lia.
      * intros z [<-|[]]. apply Hs; left; reflexivity.
      * intros z Hz. apply Hs; right; exact Hz.
      * exact Hout.
    + destruct (Z.ltb_spec (COL_TOLERANCE cfg) (x - l)) as [Hx|Hx].
      * exists l, x. split; [apply Hbs; left; reflexivity|].
        split; [apply Hs; left; reflexivity | exact Hx].
      * apply (IH [l]).
        -- simpl; lia.
        -- exact Hbs.
        -- intros z Hz. apply Hs; right; exact Hz.
        -- exact Hout.
Qed.

Lemma mergeColumnBuckets_two_inv (xs : list Z) :
  (2 <= length (mergeColumnBuckets cfg xs))%nat ->
  exists a b, In a xs /\ In b xs /\ COL_TOLERANCE cfg < b - a.
Proof.
  unfold mergeColumnBuckets. intros H.
  apply (mergeLoop_two_inv _ [] (fun z => In z xs)) in H; auto.
  - simpl; intros z [].
  - intros z Hz. exact (proj1 (sort_In _ _ _) Hz).
Qed.

(** Adding values never brings the bucket count below two. *)
Lemma mergeColumnBuckets_two_mono (xs ys : list Z) :
  0 <= COL_TOLERANCE cfg ->
  incl xs ys ->
  (2 <= length (mergeColumnBuckets cfg xs))%nat ->
  (2 <= length (mergeColumnBuckets cfg ys))%nat.
Proof.
  intros Htol Hincl H.
  destruct (mergeColumnBuckets_two_inv xs H) as (a & b & Ha & Hb & Hfar).
  apply (mergeColumnBuckets_two ys a b); auto.
Qed.

(** *** nearestBucket stays in range *)

Lemma nearestLoop_bound (x : Z) (rest : list Z) (i best : nat) (d : Z) :
  (best < i)%nat -> (nearestLoop x rest i best d < i + length rest)%nat.
Proof.
  revert i best d. induction rest as [|b r IH]; intros i best d Hb; simpl.
  - lia.
  - destruct (Z.abs (x - b) <? d).
    + specialize (IH (S i) i (Z.abs (x - b))). lia.
    + specialize (IH (S i) best d). lia.
Qed.

Lemma nearestBucket_bound (x : Z) (buckets : list Z) :
  buckets <> [] -> (nearestBucket x buckets < length buckets)%nat.
Proof.
  destruct buckets as [|b0 rest]; [congruence|]. intros _. simpl.
  pose proof (nearestLoop_bound x rest 1 0 (Z.abs (x - b0))). lia.
Qed.

End BucketFacts.

(** *** Array writes *)

Lemma set_length_in_range {A : Type} (hole : A) (l : list A) (i : nat) (v : A) :
  (i < length l)%nat -> length (JsArray.set hole l i v) = length l.
Proof.
  revert i. induction l as [|a r IH]; intros i Hi; simpl in *; [lia|].
  destruct i; simpl; [reflexivity|]. rewrite IH; [reflexivity | lia].
Qed.

(** ** Block segmentation *)

Section SegmentFacts.

Variable cfg : Config.

Lemma firstn_plus {A : Type} (i k : nat) (l : list A) :
  firstn (i + k) l = firstn i l ++ firstn k (skipn i l).
Proof.
  revert l. induction i as [|i IH]; intros l; simpl; [reflexivity|].
  destruct l as [|a r]; simpl.
  - rewrite firstn_nil. reflexivity.
  - rewrite IH. reflexivity.
Qed.

Lemma firstn_succ_nth {A : Type} (i : nat) (l : list A) (a : A) :
  nth_error l i = Some a -> firstn (S i) l = firstn i l ++ [a].
Proof.
  revert l. induction i as [|i IH]; intros [|b r] H; simpl in H; try discriminate.
  - injection H as ->. reflexivity.
  - change (firstn (S (S i)) (b :: r)) with (b :: firstn (S i) r).
    rewrite (IH r H). reflexivity.
Qed.

(** The accepted lines are the lines accepted so far followed by a prefix of
    the lines still to scan. *)
Lemma extractLoop_prefix (rest acc : list LineGroup.t) (b : list Z) :
  exists k, (k <= length rest)%nat /\
            extractLoop cfg rest acc b = acc ++ firstn k rest.
Proof.
  revert acc b. induction rest as [|line rest IH]; intros acc b; simpl.
  - exists 0%nat. rewrite app_nil_r. split; [lia | reflexivity].
  - assert (Hstop : exists k, (k <= S (length rest))%nat /\
                              acc = acc ++ firstn k (line :: rest)).
    { exists 0%nat. simpl. rewrite app_nil_r. split; [lia | reflexivity]. }
    assert (Hgo : forall b', exists k, (k <= S (length rest))%nat /\
              extractLoop cfg rest (acc ++ [line]) b'
              = acc ++ firstn k (line :: rest)).
    { intros b'. destruct (IH (acc ++ [line]) b') as (k & Hk & ->).
      exists (S k). simpl. rewrite <- app_assoc. split; [lia | reflexivity]. }
    destruct (length (LineGroup.items line) <? MIN_TABLE_COLS cfg)%nat; [exact Hstop|].
    destruct (length b =? 0)%nat.
    + destruct (length (mergeColumnBuckets cfg (lineXs line))
                <? MIN_TABLE_COLS cfg)%nat; [exact Hstop | apply Hgo].
    + destruct (length (filter (aligned cfg b) (lineXs line))
                <? MIN_TABLE_COLS cfg)%nat; [exact Hstop | apply Hgo].
Qed.

(** The first accepted line has at least MIN_TABLE_COLS buckets of its own,
    and at least MIN_TABLE_COLS items. *)
Lemma extractLoop_head (rest tl : list LineGroup.t) (l0 : LineGroup.t) :
  extractLoop cfg rest [] [] = l0 :: tl ->
  (MIN_TABLE_COLS cfg <= length (mergeColumnBuckets cfg (lineXs l0)))%nat /\
  (MIN_TABLE_COLS cfg <= length (LineGroup.items l0))%nat.
Proof.
  destruct rest as [|line rest]; simpl; [discriminate|].
  destruct (Nat.ltb_spec (length (LineGroup.items line)) (MIN_TABLE_COLS cfg));
    [discriminate|].
  destruct (Nat.ltb_spec (length (mergeColumnBuckets cfg (lineXs line)))
              (MIN_TABLE_COLS cfg)); [discriminate|].
  destruct (extractLoop_prefix rest [line] (mergeColumnBuckets cfg (lineXs line)))
    as (k & _ & ->).
  simpl. intros Heq. injection Heq as -> _. split; assumption.
Qed.

Lemma tryExtractTable_Some (lines tl : list LineGroup.t) (start : nat) :
  tryExtractTable cfg lines start = Some tl ->
  (start < length lines)%nat /\
  (MIN_TABLE_ROWS cfg <= length tl)%nat /\
  (start + length tl <= length lines)%nat /\
  tl = firstn (length tl) (skipn start lines) /\
  tl = extractLoop cfg (skipn start lines) [] [].
Proof.
  unfold tryExtractTable.
  destruct (Nat.leb_spec (length lines) start) as [|Hs]; [discriminate|].
  destruct (Nat.leb_spec (MIN_TABLE_ROWS cfg)
              (length (extractLoop cfg (skipn start lines) [] [])))
    as [Hrows|]; [|discriminate].
  intros H. injection H as <-.
  destruct (extractLoop_prefix (skipn start lines) [] []) as (k & Hk & Heq).
  simpl in Heq. rewrite Heq in *.
  rewrite length_skipn in Hk.
  assert (Hlen : length (firstn k (skipn start lines)) = k).
  { rewrite length_firstn, length_skipn. lia. }
  rewrite Hlen. repeat split; auto; lia.
Qed.

Lemma segmentLoop_unfold (fuel : nat) (lines : list LineGroup.t) (i : nat)
  (blocks : list Block) :
  segmentLoop cfg fuel lines i blocks =
  if (length lines <=? i)%nat then Some blocks
  else
    match fuel with
    | O => None
    | S fuel' =>
        let para :=
          match nth_error lines i with
          | Some line =>
              segmentLoop cfg fuel' lines (S i) (blocks ++ [ParaBlock [line]])
          | None => None
          end in
        match tryExtractTable cfg lines i with
        | Some tableLines =>
            if (MIN_TABLE_ROWS cfg <=? length tableLines)%nat
            then segmentLoop cfg fuel' lines (i + length tableLines)
                   (blocks ++ [TableBlock tableLines])
            else para
        | None => para
        end
    end.
Proof. destruct fuel; reflexivity. Qed.

Lemma concat_blockLines_snoc (blocks : list Block) (b : Block) :
  concat (map blockLines (blocks ++ [b]))
  = concat (map blockLines blocks) ++ blockLines b.
Proof. rewrite map_app, concat_app. simpl. rewrite app_nil_r. reflexivity. Qed.

(** With a positive MIN_TABLE_ROWS every iteration advances [i]: the loop
    ends within [length lines - i] iterations, and its blocks cover the
    lines. *)
Lemma segmentLoop_total_cover (fuel : nat) (lines : list LineGroup.t) :
  (1 <= MIN_TABLE_ROWS cfg)%nat ->
  forall (i : nat) (blocks : list Block),
  (length lines - i <= fuel)%nat -> (i <= length lines)%nat ->
  concat (map blockLines blocks) = firstn i lines ->
  exists out, segmentLoop cfg fuel lines i blocks = Some out /\
              concat (map blockLines out) = lines.
Proof.
  intros Hrows. induction fuel as [|fuel IH]; intros i blocks Hfuel Hi Hcov;
    rewrite segmentLoop_unfold.
  - destruct (Nat.leb_spec (length lines) i); [|lia].
    exists blocks. split; [reflexivity|].
    rewrite Hcov. apply firstn_all2. lia.
  - destruct (Nat.leb_spec (length lines) i) as [Hge|Hlt].
    + exists blocks. split; [reflexivity|].
      rewrite Hcov. apply firstn_all2. lia.
    + assert (Hpara : exists out,
                match nth_error lines i with
                | Some line =>
                    segmentLoop cfg fuel lines (S i) (blocks ++ [ParaBlock [line]])
                | None => None
                end = Some out /\ concat (map blockLines out) = lines).
      { destruct (nth_error lines i) as [line|] eqn:Hnth.
        - apply IH; [lia | lia |].
          rewrite concat_blockLines_snoc, Hcov. simpl.
          symmetry. apply firstn_succ_nth, Hnth.
        - apply nth_error_None in Hnth. lia. }
      cbv zeta.
      destruct (tryExtractTable cfg lines i) as [tl|] eqn:Htry; [|exact Hpara].
      destruct (Nat.leb_spec (MIN_TABLE_ROWS cfg) (length tl)); [|exact Hpara].
      destruct (tryExtractTable_Some _ _ _ Htry) as (_ & _ & Hend & Htl & _).
      apply IH; [lia | lia |].
      rewrite concat_blockLines_snoc, Hcov. simpl.
      rewrite firstn_plus, <- Htl. reflexivity.
Qed.

Lemma segmentIntoBlocks_total_cover (lines : list LineGroup.t) :
  (1 <= MIN_TABLE_ROWS cfg)%nat ->
  exists blocks, segmentIntoBlocks cfg lines = Some blocks /\
                 concat (map blockLines blocks) = lines.
Proof.
  intros Hrows. unfold segmentIntoBlocks.
  apply segmentLoop_total_cover; [exact Hrows | lia | lia | reflexivity].
Qed.

(** Every table block is a result of tryExtractTable, every paragraph block
    holds one line of the input. *)
Lemma segmentLoop_Forall (P : Block -> Prop) (lines : list LineGroup.t) :
  (forall start tl, tryExtractTable cfg lines start = Some tl ->
                    P (TableBlock tl)) ->
  (forall l, In l lines -> P (ParaBlock [l])) ->
  forall (fuel i : nat) (blocks out : list Block),
  Forall P blocks ->
  segmentLoop cfg fuel lines i blocks = Some out -> Forall P out.
Proof.
  intros Htable Hpara. induction fuel as [|fuel IH]; intros i blocks out Hb;
    rewrite segmentLoop_unfold.
  - destruct (length lines <=? i)%nat; [|discriminate].
    intros H; injection H as <-; exact Hb.
  - destruct (length lines <=? i)%nat.
    + intros H; injection H as <-; exact Hb.
    + cbv zeta.
      assert (Hp : match nth_error lines i with
                   | Some line =>
                       segmentLoop cfg fuel lines (S i) (blocks ++ [ParaBlock [line]])
                   | None => None
                   end = Some out -> Forall P out).
      { destruct (nth_error lines i) as [line|] eqn:Hnth; [|discriminate].
        apply IH. apply Forall_app. split; [exact Hb|].
        constructor; [|constructor]. apply Hpara. eapply nth_error_In, Hnth. }
      destruct (tryExtractTable cfg lines i) as [tl|] eqn:Htry; [|exact Hp].
      destruct (MIN_TABLE_ROWS cfg <=? length tl)%nat; [|exact Hp].
      apply IH. apply Forall_app. split; [exact Hb|].
      constructor; [|constructor]. eapply Htable, Htry.
Qed.

End SegmentFacts.

(** ** Element emission *)

Section EmitFacts.

Variable cfg : Config.

Lemma emitBlocks_flat (blocks : list Block) (elements : list DocElement) :
  emitBlocks cfg blocks elements
  = elements ++ flat_map (blockElements cfg) blocks.
Proof.
  revert elements. induction blocks as [|b rest IH]; intros elements; simpl.
  - rewrite app_nil_r. reflexivity.
  - destruct b as [ls|ls]; rewrite IH, <- app_assoc; reflexivity.
Qed.

Lemma placeItem_length (colBuckets : list Z) (cells : list string)
  (item : PositionedItem.t) :
  colBuckets <> [] -> length cells = length colBuckets ->
  length (placeItem colBuckets cells item) = length colBuckets.
Proof.
  intros Hne Hlen. unfold placeItem.
  rewrite set_length_in_range; [exact Hlen|].
  rewrite Hlen. apply nearestBucket_bound, Hne.
Qed.

Lemma tableRow_length (colBuckets : list Z) (line : LineGroup.t) :
  colBuckets <> [] ->
  length (tableRow colBuckets (length colBuckets) line)
  = length colBuckets.
Proof.
  intros Hne. unfold tableRow.
  assert (H : forall items cells, length cells = length colBuckets ->
            length (fold_left (placeItem colBuckets) items cells)
            = length colBuckets).
  { induction items as [|it r IH]; intros cells Hc; simpl; [exact Hc|].
    apply IH, placeItem_length; assumption. }
  apply H, repeat_length.
Qed.

(** A block accepted by tryExtractTable becomes a table of the right shape,
    although its buckets are recomputed from all the x-values of the block:
    the first line alone already spreads over two buckets. *)
Lemma tableBlockToElement_shape (lines tl : list LineGroup.t) (start : nat) :
  0 <= COL_TOLERANCE cfg ->
  MIN_TABLE_COLS cfg = 2%nat ->
  (1 <= MIN_TABLE_ROWS cfg)%nat ->
  tryExtractTable cfg lines start = Some tl ->
  tableShape cfg (tableBlockToElement cfg tl).
Proof.
  intros Htol Hcols Hrows Htry.
  destruct (tryExtractTable_Some cfg _ _ _ Htry) as (_ & Hlen & _ & _ & Hex).
  destruct tl as [|l0 tl']; [simpl in Hlen; lia|].
  symmetry in Hex. apply extractLoop_head in Hex. destruct Hex as [Hb0 _].
  rewrite Hcols in Hb0.
  assert (Htwo : (2 <= length (mergeColumnBuckets cfg
                                 (flat_map lineXs (l0 :: tl'))))%nat).
  { apply (mergeColumnBuckets_two_mono cfg (lineXs l0)); auto.
    simpl. apply incl_appl, incl_refl. }
  unfold tableBlockToElement, tableShape.
  split; [rewrite Hcols; exact Htwo|].
  split; [rewrite length_map; exact Hlen|].
  apply Forall_map, Forall_forall. intros line _.
  apply tableRow_length.
  intros Hnil. rewrite Hnil in Htwo. simpl in Htwo. lia.
Qed.

Lemma paraBlockToElements_shape (lines : list LineGroup.t) :
  Forall (tableShape cfg) (paraBlockToElements cfg lines).
Proof.
  unfold paraBlockToElements. apply Forall_map, Forall_forall.
  intros line _. exact I.
Qed.

Lemma paraBlockToElements_noBreak (lines : list LineGroup.t) :
  Forall (fun el => isPageBreak el = false) (paraBlockToElements cfg lines).
Proof.
  unfold paraBlockToElements. apply Forall_map, Forall_forall.
  intros line _. reflexivity.
Qed.

Lemma emitBlocks_noBreak (blocks : list Block) :
  Forall (fun el => isPageBreak el = false) (emitBlocks cfg blocks []).
Proof.
  rewrite emitBlocks_flat. simpl.
  apply Forall_flat_map, Forall_forall. intros [ls|ls] _; simpl.
  - constructor; [reflexivity | constructor].
  - apply paraBlockToElements_noBreak.
Qed.

Lemma buildDocElements_noBreak (items : list RawItem) (pageHeight : Z)
  (els : list DocElement) :
  buildDocElements cfg items pageHeight = Some els ->
  Forall (fun el => isPageBreak el = false) els.
Proof.
  unfold buildDocElements.
  destruct (length (toPositioned items pageHeight) =? 0)%nat.
  - intros H; injection H as <-. constructor.
  - destruct (segmentIntoBlocks cfg _) as [blocks|]; [|discriminate].
    intros H; injection H as <-. apply emitBlocks_noBreak.
Qed.

Lemma buildDocElements_total (items : list RawItem) (pageHeight : Z) :
  (1 <= MIN_TABLE_ROWS cfg)%nat ->
  exists els, buildDocElements cfg items pageHeight = Some els.
Proof.
  intros Hrows. unfold buildDocElements.
  destruct (length (toPositioned items pageHeight) =? 0)%nat; [eauto|].
  destruct (segmentIntoBlocks_total_cover cfg
              (groupIntoLines cfg (toPositioned items pageHeight)) Hrows)
    as (blocks & -> & _).
  eauto.
Qed.

Lemma buildDocElements_shape (items : list RawItem) (pageHeight : Z) :
  0 <= COL_TOLERANCE cfg ->
  MIN_TABLE_COLS cfg = 2%nat ->
  (1 <= MIN_TABLE_ROWS cfg)%nat ->
  exists els, buildDocElements cfg items pageHeight = Some els /\
              Forall (tableShape cfg) els.
Proof.
  intros Htol Hcols Hrows. unfold buildDocElements.
  destruct (length (toPositioned items pageHeight) =? 0)%nat.
  { exists []. split; [reflexivity | constructor]. }
  set (lines := groupIntoLines cfg (toPositioned items pageHeight)).
  destruct (segmentIntoBlocks_total_cover cfg lines Hrows) as (blocks & Hseg & _).
  rewrite Hseg. eexists. split; [reflexivity|].
  rewrite emitBlocks_flat. simpl.
  assert (Hb : Forall (fun b => Forall (tableShape cfg) (blockElements cfg b))
                 blocks).
  { unfold segmentIntoBlocks in Hseg.
    eapply segmentLoop_Forall; [| |constructor|exact Hseg].
    - intros start tl Htry. simpl. constructor; [|constructor].
      eapply tableBlockToElement_shape; eauto.
    - intros l _. apply paraBlockToElements_shape. }
  apply Forall_flat_map. exact Hb.
Qed.

End EmitFacts.

(** C1. Every table element that buildDocElements emits has at least
    MIN_TABLE_COLS (2) columns and at least MIN_TABLE_ROWS (2) rows, and each
    of its rows has exactly colCount cells, even though tableBlockToElement
    recomputes the buckets from all the x-values of the block. *)
Theorem C1_table_shape (items : list RawItem) (pageHeight : Z) :
  exists els,
    buildDocElements defaultConfig items pageHeight = Some els /\
    forall rows colCount,
      In (table rows colCount) els ->
      (MIN_TABLE_COLS defaultConfig <= colCount)%nat /\
      (MIN_TABLE_ROWS defaultConfig <= length rows)%nat /\
      (forall row, In row rows -> length row = colCount).
Proof.
  destruct (buildDocElements_shape defaultConfig items pageHeight)
    as (els & Hrun & Hshape); [simpl; lia | reflexivity | simpl; lia |].
  exists els. split; [exact Hrun|].
  intros rows colCount Hin.
  rewrite Forall_forall in Hshape. specialize (Hshape _ Hin).
  simpl in Hshape. destruct Hshape as (Hc & Hr & Hrect).
  rewrite Forall_forall in Hrect. auto.
Qed.

(** C2. The lines of the blocks that segmentIntoBlocks returns, concatenated
    in output order, are exactly the input lines. *)
Theorem C2_coverage (lines : list LineGroup.t) :
  exists blocks,
    segmentIntoBlocks defaultConfig lines = Some blocks /\
    concat (map blockLines blocks) = lines.
Proof. apply segmentIntoBlocks_total_cover. simpl; lia. Qed.

(** C9. buildDocElements returns paragraph and table elements only, never a
    pageBreak. *)
Theorem C9_core_emits_no_pageBreak (items : list RawItem) (pageHeight : Z) :
  exists els,
    buildDocElements defaultConfig items pageHeight = Some els /\
    forall el, In el els ->
      (exists text isHeading, el = paragraph text isHeading) \/
      (exists rows colCount, el = table rows colCount).
Proof.
  destruct (buildDocElements_total defaultConfig items pageHeight)
    as (els & Hrun); [simpl; lia|].
  exists els. split; [exact Hrun|].
  intros el Hin.
  pose proof (buildDocElements_noBreak _ _ _ _ Hrun) as Hnb.
  rewrite Forall_forall in Hnb. specialize (Hnb _ Hin).
  destruct el; [left; eauto | right; eauto | discriminate].
Qed.

(** ** Line grouping *)

Section GroupFacts.

Variable cfg : Config.

Lemma gapped_snoc (tol : Z) (l : list Z) (a b : Z) :
  gapped tol (l ++ [a]) -> tol < b - a -> gapped tol ((l ++ [a]) ++ [b]).
Proof.
  induction l as [|c r IH]; simpl; intros Hg Hab.
  - auto.
  - destruct Hg as [Hc Hr]. split; [|apply IH; assumption].
    destruct r as [|d r']; simpl in *; exact Hc.
Qed.

Lemma gapped_middle (tol : Z) (l1 l2 : list Z) (a b : Z) :
  gapped tol (l1 ++ a :: b :: l2) -> tol < b - a.
Proof.
  induction l1 as [|c r IH]; simpl; intros [H Hr].
  - exact H.
  - apply IH, Hr.
Qed.

Lemma map_y_closeLine (lines : list LineGroup.t) (currentY : Z)
  (currentLine : list PositionedItem.t) :
  map LineGroup.y (lines ++ [closeLine currentY currentLine])
  = map LineGroup.y lines ++ [currentY].
Proof. rewrite map_app. reflexivity. Qed.

(** The scan keeps the gaps: a line is closed only by an item that lies more
    than ROW_TOLERANCE below the representative y of the line. *)
Lemma groupLoop_gapped (rest : list PositionedItem.t) :
  StronglySorted (fun a b => PositionedItem.y a <= PositionedItem.y b) rest ->
  forall (lines : list LineGroup.t) (currentLine : list PositionedItem.t)
         (currentY : Z),
  Forall (fun it => currentY <= PositionedItem.y it) rest ->
  gapped (ROW_TOLERANCE cfg) (map LineGroup.y lines ++ [currentY]) ->
  gapped (ROW_TOLERANCE cfg)
    (map LineGroup.y (groupLoop cfg rest lines currentLine currentY)).
Proof.
  induction 1 as [|item rest Hs IH Hitem]; intros lines currentLine currentY Hge Hg;
    simpl.
  - rewrite map_y_closeLine. exact Hg.
  - apply Forall_cons_iff in Hge. destruct Hge as [Hi Hge].
    destruct (Z.leb_spec (Z.abs (PositionedItem.y item - currentY))
                (ROW_TOLERANCE cfg)) as [Hnear|Hfar].
    + apply IH; assumption.
    + apply IH; [exact Hitem|].
      rewrite map_y_closeLine. apply gapped_snoc; [exact Hg | lia].
Qed.

Lemma groupIntoLines_gapped (items : list PositionedItem.t) :
  gapped (ROW_TOLERANCE cfg) (map LineGroup.y (groupIntoLines cfg items)).
Proof.
  unfold groupIntoLines.
  destruct (length items =? 0)%nat; [exact I|].
  pose proof (sort_byY_sorted items) as Hs.
  destruct (JsArray.sort byY items) as [|first rest]; [exact I|].
  apply StronglySorted_inv in Hs. destruct Hs as [Hs Hfirst].
  apply groupLoop_gapped; [exact Hs | exact Hfirst | simpl; auto].
Qed.

Lemma groupLoop_nonempty (rest : list PositionedItem.t)
  (lines : list LineGroup.t) (currentLine : list PositionedItem.t)
  (currentY : Z) :
  groupLoop cfg rest lines currentLine currentY <> [].
Proof.
  revert lines currentLine currentY.
  induction rest as [|item rest IH]; intros lines currentLine currentY; simpl.
  - destruct lines; discriminate.
  - destruct (_ <=? _); apply IH.
Qed.

Lemma groupIntoLines_nonempty (items : list PositionedItem.t) :
  items <> [] -> groupIntoLines cfg items <> [].
Proof.
  intros Hne. unfold groupIntoLines.
  destruct items as [|a r]; [congruence|]. simpl length. simpl Nat.eqb.
  pose proof (sort_length byY (a :: r)) as Hlen.
  destruct (JsArray.sort byY (a :: r)) as [|first rest]; [discriminate|].
  apply groupLoop_nonempty.
Qed.

End GroupFacts.

(** C10. In the output of groupIntoLines the representative y of each line
    exceeds that of the line before it by more than ROW_TOLERANCE (4); in
    particular the representative y values are strictly increasing. *)
Theorem C10_line_gaps (items : list PositionedItem.t)
  (before after : list LineGroup.t) (l1 l2 : LineGroup.t) :
  groupIntoLines defaultConfig items = before ++ l1 :: l2 :: after ->
  LineGroup.y l1 < LineGroup.y l2 /\
  ROW_TOLERANCE defaultConfig < LineGroup.y l2 - LineGroup.y l1.
Proof.
  intros Heq.
  pose proof (groupIntoLines_gapped defaultConfig items) as Hg.
  rewrite Heq, map_app in Hg. simpl map in Hg.
  apply gapped_middle in Hg. simpl in *. lia.
Qed.

(** C10 on a grid of two rows, given out of order. *)
Lemma C10_line_gaps_witness :
  groupIntoLines defaultConfig gridItems = [] ++ rowAB :: rowCD :: [] /\
  LineGroup.y rowAB < LineGroup.y rowCD /\
  ROW_TOLERANCE defaultConfig < LineGroup.y rowCD - LineGroup.y rowAB.
Proof.
  split; [reflexivity|].
  apply (C10_line_gaps gridItems [] [] rowAB rowCD).
  reflexivity.
Defined.

(** ** Normalization *)

Lemma truthy_eqb (s : string) :
  JsString.truthy s = negb (String.eqb s EmptyString).
Proof. destruct s; reflexivity. Qed.

Lemma toPositionedLoop_spec (items : list RawItem) (H : Z)
  (result : list PositionedItem.t) :
  toPositionedLoop items H result
  = result ++ map (positionRun H) (filter nonBlank (glyphRuns items)).
Proof.
  revert result. induction items as [|raw rest IH]; intros result; simpl.
  - rewrite app_nil_r. reflexivity.
  - destruct raw as [item|ty]; simpl; [|apply IH].
    unfold nonBlank at 1. rewrite truthy_eqb.
    destruct (negb (String.eqb (JsString.trim (TextItem.str item)) EmptyString));
      simpl.
    + rewrite IH, <- app_assoc. reflexivity.
    + apply IH.
Qed.

(** ** Strings *)

Lemma string_app_assoc (a b c : string) :
  ((a ++ b) ++ c = a ++ (b ++ c))%string.
Proof. induction a as [|ch a IH]; simpl; [reflexivity | rewrite IH; reflexivity]. Qed.

Lemma string_app_nil_r (a : string) : (a ++ EmptyString)%string = a.
Proof. induction a as [|ch a IH]; simpl; [reflexivity | rewrite IH; reflexivity]. Qed.

Lemma joinLoop_later (sep : string) (l : list string) (k : nat) (R : string) :
  JsString.joinLoop sep l (S k) R
  = match l with
    | [] => R
    | _ => (R ++ sep ++ String.concat sep l)%string
    end.
Proof.
  revert k R. induction l as [|s r IH]; intros k R; [reflexivity|].
  simpl JsString.joinLoop. rewrite IH.
  destruct r as [|s' r']; simpl.
  - apply string_app_assoc.
  - rewrite !string_app_assoc. reflexivity.
Qed.

(** Array.prototype.join is the separator-interleaved concatenation. *)
Lemma join_concat (sep : string) (l : list string) :
  JsString.join sep l = String.concat sep l.
Proof.
  destruct l as [|s r]; [reflexivity|].
  unfold JsString.join. simpl JsString.joinLoop. rewrite joinLoop_later.
  destruct r; reflexivity.
Qed.



(** C8. elementsToText joins the renderings of the elements with a line
    feed: a paragraph renders as its text, a pageBreak as the literal
    --- Page Break ---, a table as its rows joined by a line feed, the cells of
    a row joined by one tab; [Paragraph a, PageBreak, Paragraph b] gives
    a, --- Page Break --- and b on three lines. *)
Theorem C8_elementsToText :
  (forall elements : list DocElement,
      elementsToText elements
      = String.concat JsString.newline
          (map (fun el =>
                  match el with
                  | paragraph text _ => text
                  | pageBreak => "--- Page Break ---"
                  | table rows _ =>
                      String.concat JsString.newline
                        (map (String.concat JsString.tab) rows)
                  end) elements)) /\
  elementsToText [paragraph "a" false; pageBreak; paragraph "b" false]
  = ("a" ++ JsString.newline ++ "--- Page Break ---" ++ JsString.newline ++ "b")%string.
Proof.
  split; [|reflexivity].
  intros elements. unfold elementsToText. rewrite join_concat.
  f_equal. apply map_ext. intros [text h|rows n|]; simpl; try reflexivity.
  rewrite join_concat. f_equal. apply map_ext. intros row. apply join_concat.
Qed.

(** ** Errors *)

(** C4, as stated, fails: with page height 0, which is not positive, the
    call returns a paragraph and raises nothing. *)
Lemma C4_counterexample :
  ~ (callBuildDocElements defaultConfig [glyph 50 (-20) "A"] 0
     = Some (Raised MalformedInput)
     <-> ~ (0 < 0)).
Proof.
  intros [_ H].
  assert (Hr : callBuildDocElements defaultConfig [glyph 50 (-20) "A"] 0
               = Some (Returned [paragraph "A" true])) by reflexivity.
  rewrite Hr in H. specialize (H ltac:(lia)). discriminate H.
Qed.

(** C4, amended. The core has no error path: on every items list and every
    page height, positive or not, buildDocElements returns, and it returns
    the empty list on an empty items list. *)
Theorem C4_core_never_raises (items : list RawItem) (pageHeight : Z) :
  exists els,
    callBuildDocElements defaultConfig items pageHeight = Some (Returned els) /\
    (items = [] -> els = []).
Proof.
  unfold callBuildDocElements.
  destruct (buildDocElements_total defaultConfig items pageHeight)
    as (els & Hrun); [simpl; lia|].
  rewrite Hrun. exists els. split; [reflexivity|].
  intros ->. cbv in Hrun. injection Hrun as <-. reflexivity.
Qed.

(** ** Raising the table thresholds *)

Section RaiseFacts.

Variables cfg cfg' : Config.
Hypothesis Hraised : raised cfg cfg'.

Lemma mergeLoop_tol (s bs : list Z) :
  mergeLoop cfg' s bs = mergeLoop cfg s bs.
Proof.
  destruct Hraised as (_ & Htol & _).
  revert bs. induction s as [|x r IH]; intros bs; simpl; [reflexivity|].
  rewrite Htol, !IH. reflexivity.
Qed.

Lemma mergeColumnBuckets_tol (xs : list Z) :
  mergeColumnBuckets cfg' xs = mergeColumnBuckets cfg xs.
Proof. apply mergeLoop_tol. Qed.

Lemma aligned_tol (b : list Z) (x : Z) : aligned cfg' b x = aligned cfg b x.
Proof.
  destruct Hraised as (_ & Htol & _). unfold aligned. rewrite Htol. reflexivity.
Qed.

(** Under the raised thresholds the scan stops no later, and until it stops
    it accepts the same lines with the same buckets. *)
Lemma extractLoop_raised (rest acc : list LineGroup.t) (b : list Z) :
  exists more,
    extractLoop cfg rest acc b = extractLoop cfg' rest acc b ++ more.
Proof.
  destruct Hraised as (_ & _ & _ & Hcols & _).
  revert acc b. induction rest as [|line rest IH]; intros acc b; simpl.
  - exists []. rewrite app_nil_r. reflexivity.
  - assert (Hstop : forall r, (exists k, r = acc ++ firstn k (line :: rest)) ->
                              exists more, r = acc ++ more) by
      (intros r (k & ->); eauto).
    pose proof (extractLoop_prefix cfg (line :: rest) acc b) as (k & _ & Hk).
    simpl in Hk.
    destruct (Nat.ltb_spec (length (LineGroup.items line)) (MIN_TABLE_COLS cfg'))
      as [|H1]; [apply Hstop; eauto|].
    destruct (Nat.ltb_spec (length (LineGroup.items line)) (MIN_TABLE_COLS cfg))
      as [|_]; [lia|].
    destruct (length b =? 0)%nat.
    + rewrite mergeColumnBuckets_tol.
      destruct (Nat.ltb_spec (length (mergeColumnBuckets cfg (lineXs line)))
                  (MIN_TABLE_COLS cfg')) as [|H2].
      * apply Hstop. exists k. rewrite <- Hk.
        destruct (Nat.ltb_spec (length (LineGroup.items line))
                    (MIN_TABLE_COLS cfg)); [lia|].
        reflexivity.
      * destruct (Nat.ltb_spec (length (mergeColumnBuckets cfg (lineXs line)))
                    (MIN_TABLE_COLS cfg)); [lia|].
        apply IH.
    + rewrite mergeColumnBuckets_tol.
      rewrite (filter_ext _ _ (aligned_tol b)).
      destruct (Nat.ltb_spec (length (filter (aligned cfg b) (lineXs line)))
                  (MIN_TABLE_COLS cfg')) as [|H2].
      * apply Hstop. exists k. rewrite <- Hk.
        destruct (Nat.ltb_spec (length (LineGroup.items line))
                    (MIN_TABLE_COLS cfg)); [lia|].
        reflexivity.
      * destruct (Nat.ltb_spec (length (filter (aligned cfg b) (lineXs line)))
                    (MIN_TABLE_COLS cfg)); [lia|].
        apply IH.
Qed.

Lemma tryExtractTable_raised (lines t' : list LineGroup.t) (start : nat) :
  tryExtractTable cfg' lines start = Some t' ->
  exists t more, tryExtractTable cfg lines start = Some t /\ t = t' ++ more.
Proof.
  destruct Hraised as (_ & _ & _ & _ & Hrows).
  unfold tryExtractTable.
  destruct (length lines <=? start)%nat; [discriminate|].
  destruct (Nat.leb_spec (MIN_TABLE_ROWS cfg')
              (length (extractLoop cfg' (skipn start lines) [] [])))
    as [Hlen|]; [|discriminate].
  intros H. injection H as <-.
  destruct (extractLoop_raised (skipn start lines) [] []) as (more & Hmore).
  rewrite Hmore.
  destruct (Nat.leb_spec (MIN_TABLE_ROWS cfg)
              (length (extractLoop cfg' (skipn start lines) [] [] ++ more)))
    as [|Hlt].
  - eauto.
  - rewrite length_app in Hlt. lia.
Qed.

End RaiseFacts.

(** C6, as stated, fails.  With MIN_TABLE_ROWS = 2 the four lines give a
    table of lines A, B and the paragraphs C, D; with MIN_TABLE_ROWS = 3 the
    scan from A fails, the walk restarts at B and lines B, C, D form a table:
    C and D were paragraphs under the lower threshold. *)
Lemma C6_counterexample :
  raised defaultConfig threeRowsConfig /\
  groupIntoLines defaultConfig (flat_map LineGroup.items fourLines) = fourLines /\
  segmentIntoBlocks defaultConfig fourLines
  = Some [TableBlock [lineA; lineB]; ParaBlock [lineC]; ParaBlock [lineD]] /\
  segmentIntoBlocks threeRowsConfig fourLines
  = Some [ParaBlock [lineA]; TableBlock [lineB; lineC; lineD]] /\
  ~ tablesOnlyShrink defaultConfig threeRowsConfig fourLines.
Proof.
  split; [unfold raised; simpl; repeat split; lia|].
  split; [reflexivity|]. split; [reflexivity|]. split; [reflexivity|].
  intros H. specialize (H _ _ eq_refl eq_refl 2%nat eq_refl). discriminate H.
Qed.

(** C6, amended. From a fixed start line, raising MIN_TABLE_ROWS or
    MIN_TABLE_COLS can only shorten the table that tryExtractTable extracts
    there, or turn it into none: a table found under the raised thresholds is
    a prefix of the table found from the same start under the lower ones. *)
Theorem C6_raise_shrinks_extraction (cfg cfg' : Config)
  (lines t' : list LineGroup.t) (start : nat) :
  raised cfg cfg' ->
  tryExtractTable cfg' lines start = Some t' ->
  exists t more, tryExtractTable cfg lines start = Some t /\ t = t' ++ more.
Proof. intros Hr. apply tryExtractTable_raised, Hr. Qed.

(** The amended C6 at the four lines, from the start line B. *)
Lemma C6_raise_shrinks_extraction_witness :
  raised defaultConfig threeRowsConfig /\
  tryExtractTable threeRowsConfig fourLines 1 = Some [lineB; lineC; lineD] /\
  exists t more,
    tryExtractTable defaultConfig fourLines 1 = Some t /\
    t = [lineB; lineC; lineD] ++ more.
Proof.
  assert (Hr : raised defaultConfig threeRowsConfig)
    by (unfold raised; simpl; repeat split; lia).
  split; [exact Hr|]. split; [reflexivity|].
  apply (C6_raise_shrinks_extraction defaultConfig threeRowsConfig fourLines
           [lineB; lineC; lineD] 1%nat Hr).
  reflexivity.
Defined.

(** ** Page assembly *)

Lemma trimStart_allWhite (s : string) :
  allWhite (JsString.trimStart s) = allWhite s.
Proof.
  induction s as [|c r IH]; simpl; [reflexivity|].
  destruct (JsString.isWhiteSpace c) eqn:Hc; simpl.
  - exact IH.
  - rewrite Hc. reflexivity.
Qed.

Lemma trimEnd_empty (s : string) :
  JsString.trimEnd s = EmptyString <-> allWhite s = true.
Proof.
  induction s as [|c r IH]; simpl.
  - split; reflexivity.
  - rewrite andb_true_iff, <- IH.
    destruct (JsString.trimEnd r); destruct (JsString.isWhiteSpace c);
      split; try discriminate; try tauto; intros [? ?]; discriminate.
Qed.

Lemma trim_empty (s : string) :
  JsString.trim s = EmptyString <-> allWhite s = true.
Proof. unfold JsString.trim. rewrite trimEnd_empty, trimStart_allWhite. tauto. Qed.

Lemma allWhite_app (a b : string) :
  allWhite (a ++ b)%string = allWhite a && allWhite b.
Proof.
  induction a as [|c a IH]; simpl; [reflexivity|].
  rewrite IH, andb_assoc. reflexivity.
Qed.

Lemma allWhite_concat (l : list string) :
  allWhite (String.concat EmptyString l) = forallb allWhite l.
Proof.
  induction l as [|s r IH]; [reflexivity|].
  destruct r as [|s' r'].
  - simpl. rewrite andb_true_r. reflexivity.
  - change (String.concat EmptyString (s :: s' :: r'))
      with (s ++ EmptyString ++ String.concat EmptyString (s' :: r'))%string.
    rewrite allWhite_app.
    change (EmptyString ++ String.concat EmptyString (s' :: r'))%string
      with (String.concat EmptyString (s' :: r')).
    rewrite IH. reflexivity.
Qed.

Lemma textStrs_glyphRuns (items : list RawItem) :
  textStrs items = map TextItem.str (glyphRuns items).
Proof.
  induction items as [|[item|ty] rest IH]; simpl; [reflexivity | | exact IH].
  rewrite IH. reflexivity.
Qed.

(** A page that passes the digital test has a run that survives
    normalization. *)
Lemma digital_toPositioned (page : Page.t) :
  isDigital page = true ->
  toPositioned (Page.items page) (Page.pageHeight page) <> [].
Proof.
  unfold isDigital, TEXT_THRESHOLD. rewrite Nat.leb_le. intros Hlen.
  assert (Hne : allWhite (JsString.join EmptyString (textStrs (Page.items page)))
                = false).
  { destruct (allWhite _) eqn:Hw; [|reflexivity].
    apply trim_empty in Hw. unfold embeddedRaw in Hlen.
    rewrite Hw in Hlen. simpl in Hlen. lia. }
  rewrite join_concat, allWhite_concat, textStrs_glyphRuns in Hne.
  unfold toPositioned. rewrite toPositionedLoop_spec. simpl.
  induction (glyphRuns (Page.items page)) as [|item r IH]; simpl in *.
  - discriminate.
  - unfold nonBlank at 1.
    destruct (String.eqb_spec (JsString.trim (TextItem.str item)) EmptyString)
      as [He|He]; simpl.
    + apply trim_empty in He. rewrite He in Hne. apply IH, Hne.
    + discriminate.
Qed.

Section AssemblyFacts.

Variable cfg : Config.
Hypothesis Hrows : (1 <= MIN_TABLE_ROWS cfg)%nat.

Lemma blockElements_nonempty (lines : list LineGroup.t) (fuel i : nat)
  (blocks out : list Block) :
  Forall (fun b => blockElements cfg b <> []) blocks ->
  segmentLoop cfg fuel lines i blocks = Some out ->
  Forall (fun b => blockElements cfg b <> []) out.
Proof.
  apply segmentLoop_Forall.
  - intros start tl _. discriminate.
  - intros l _. discriminate.
Qed.

Lemma buildDocElements_nonempty (items : list RawItem) (pageHeight : Z)
  (els : list DocElement) :
  toPositioned items pageHeight <> [] ->
  buildDocElements cfg items pageHeight = Some els -> els <> [].
Proof.
  intros Hpos. unfold buildDocElements.
  destruct (toPositioned items pageHeight) as [|p ps] eqn:Hp; [congruence|].
  simpl length. simpl Nat.eqb.
  destruct (segmentIntoBlocks_total_cover cfg (groupIntoLines cfg (p :: ps)) Hrows)
    as (blocks & Hseg & Hcov).
  rewrite Hseg. intros H. injection H as <-.
  rewrite emitBlocks_flat. simpl.
  pose proof (groupIntoLines_nonempty cfg (p :: ps) ltac:(discriminate)) as Hl.
  assert (Hb : Forall (fun b => blockElements cfg b <> []) blocks)
    by (eapply blockElements_nonempty; [constructor | exact Hseg]).
  destruct blocks as [|b bs].
  - simpl in Hcov. congruence.
  - apply Forall_inv in Hb. simpl. destruct (blockElements cfg b); [congruence|].
    discriminate.
Qed.

Lemma pageContribution_total (page : Page.t) :
  exists c, pageContribution cfg page = Some c /\
            Forall (fun el => isPageBreak el = false) c /\
            (c = [] <-> blankScan page = true).
Proof.
  unfold pageContribution, blankScan.
  destruct (isDigital page) eqn:Hd; simpl.
  - destruct (buildDocElements_total cfg (Page.items page) (Page.pageHeight page)
                Hrows) as (c & Hc).
    exists c. split; [exact Hc|]. split.
    + eapply buildDocElements_noBreak, Hc.
    + split; [|discriminate]. intros ->. exfalso.
      eapply buildDocElements_nonempty; [|exact Hc|reflexivity].
      apply digital_toPositioned, Hd.
  - eexists. split; [reflexivity|]. split.
    + apply Forall_map, Forall_forall. intros line _. reflexivity.
    + rewrite Nat.eqb_eq.
      destruct (ocrLines (Page.ocrText page)); simpl; split;
        congruence || discriminate.
Qed.

Lemma pageLoop_cons (page : Page.t) (rest : list Page.t) (pageNum : nat)
  (allElements : list DocElement) (usedOcr : bool) :
  exists usedOcr',
    pageLoop cfg (page :: rest) pageNum allElements usedOcr
    = match pageContribution cfg page with
      | Some c =>
          pageLoop cfg rest (S pageNum)
            ((if (1 <? pageNum)%nat then allElements ++ [pageBreak]
              else allElements) ++ c) usedOcr'
      | None => None
      end.
Proof.
  unfold pageContribution, isDigital. cbn -[Nat.leb Nat.ltb TEXT_THRESHOLD].
  destruct (TEXT_THRESHOLD <=? _)%nat.
  - exists usedOcr. reflexivity.
  - exists true. reflexivity.
Qed.

(** The loop appends, page after page, an optional pageBreak and the
    contribution of the page. *)
Lemma pageLoop_shape (pages : list Page.t) :
  forall (pageNum : nat) (allElements : list DocElement) (usedOcr : bool),
  exists contribs usedOcr',
    pageLoop cfg pages pageNum allElements usedOcr
    = Some (allElements ++ interleave pageNum contribs, usedOcr') /\
    Forall2 (fun p c => pageContribution cfg p = Some c) pages contribs.
Proof.
  induction pages as [|page rest IH]; intros pageNum allElements usedOcr.
  - exists [], usedOcr. simpl. rewrite app_nil_r. split; [reflexivity | constructor].
  - destruct (pageLoop_cons page rest pageNum allElements usedOcr) as (u1 & ->).
    destruct (pageContribution_total page) as (c & Hc & _). rewrite Hc.
    destruct (IH (S pageNum)
                ((if (1 <? pageNum)%nat then allElements ++ [pageBreak]
                  else allElements) ++ c) u1)
      as (cs & u2 & -> & Hcs).
    exists (c :: cs), u2. split; [|constructor; assumption].
    f_equal. f_equal. simpl.
    destruct (1 <? pageNum)%nat; rewrite <- ?app_assoc; reflexivity.
Qed.

End AssemblyFacts.

(** *** Where the pageBreaks fall in an interleaved list *)

Lemma countBreaks_app (a b : list DocElement) :
  countBreaks (a ++ b) = (countBreaks a + countBreaks b)%nat.
Proof. unfold countBreaks. rewrite filter_app, length_app. reflexivity. Qed.

Lemma countBreaks_none (c : list DocElement) :
  Forall (fun el => isPageBreak el = false) c -> countBreaks c = 0%nat.
Proof.
  unfold countBreaks. induction 1 as [|el r Hel _ IH]; simpl; [reflexivity|].
  rewrite Hel. exact IH.
Qed.

Lemma countBreaks_interleave_later (n : nat) (cs : list (list DocElement)) :
  Forall (Forall (fun el => isPageBreak el = false)) cs ->
  countBreaks (interleave (S (S n)) cs) = length cs.
Proof.
  revert n. induction cs as [|c cs IH]; intros n Hcs; [reflexivity|].
  apply Forall_cons_iff in Hcs. destruct Hcs as [Hc Hcs].
  change (interleave (S (S n)) (c :: cs))
    with ([pageBreak] ++ c ++ interleave (S (S (S n))) cs).
  rewrite !countBreaks_app, (countBreaks_none c Hc), IH by exact Hcs.
  reflexivity.
Qed.

Lemma interleave_later_last (n : nat) (cs : list (list DocElement))
  (c : list DocElement) :
  exists front,
    interleave (S (S n)) (cs ++ [c]) = front ++ pageBreak :: c.
Proof.
  revert n. induction cs as [|c0 cs IH]; intros n.
  - exists []. simpl. rewrite app_nil_r. reflexivity.
  - destruct (IH (S n)) as (front & Hfront).
    exists (pageBreak :: c0 ++ front).
    change (interleave (S (S n)) ((c0 :: cs) ++ [c]))
      with ([pageBreak] ++ c0 ++ interleave (S (S (S n))) (cs ++ [c])).
    rewrite Hfront. simpl. rewrite <- app_assoc. reflexivity.
Qed.

Lemma nth_error_last_snoc {A : Type} (l : list A) (a : A) :
  nth_error (l ++ [a]) (length (l ++ [a]) - 1) = Some a.
Proof.
  rewrite length_app. simpl. replace (length l + 1 - 1)%nat with (length l) by lia.
  rewrite nth_error_app2 by lia. rewrite Nat.sub_diag. reflexivity.
Qed.

Lemma nth_error_last_app {A : Type} (a c : list A) :
  c <> [] ->
  nth_error (a ++ c) (length (a ++ c) - 1) = nth_error c (length c - 1).
Proof.
  intros Hc. destruct c as [|x c']; [congruence|].
  rewrite length_app. simpl length.
  rewrite nth_error_app2 by lia. f_equal. lia.
Qed.

Lemma last_not_break (c : list DocElement) :
  Forall (fun el => isPageBreak el = false) c ->
  nth_error c (length c - 1) <> Some pageBreak.
Proof.
  intros Hc H. apply nth_error_In in H.
  rewrite Forall_forall in Hc. specialize (Hc _ H). discriminate.
Qed.

Section PageBreakFacts.

Variable cfg : Config.
Hypothesis Hrows : (1 <= MIN_TABLE_ROWS cfg)%nat.

Lemma pageContribution_facts (page : Page.t) (c : list DocElement) :
  pageContribution cfg page = Some c ->
  Forall (fun el => isPageBreak el = false) c /\
  (c = [] <-> blankScan page = true).
Proof.
  intros Hc. destruct (pageContribution_total cfg Hrows page) as (c0 & Hc0 & H).
  rewrite Hc in Hc0. injection Hc0 as <-. exact H.
Qed.

Lemma contributions_noBreak (pages : list Page.t)
  (cs : list (list DocElement)) :
  Forall2 (fun p c => pageContribution cfg p = Some c) pages cs ->
  Forall (Forall (fun el => isPageBreak el = false)) cs.
Proof.
  induction 1 as [|p c ps cs Hc _ IH]; constructor; [|exact IH].
  apply (pageContribution_facts p c Hc).
Qed.

Lemma assembly_page_breaks (first : Page.t) (rest : list Page.t) :
  exists r,
    processPdfClientSide cfg (first :: rest) = Some r /\
    countBreaks (OcrResult.elements r) = length rest /\
    (nth_error (OcrResult.elements r) 0 = Some pageBreak <->
     rest <> [] /\ blankScan first = true) /\
    (nth_error (OcrResult.elements r) (length (OcrResult.elements r) - 1)
     = Some pageBreak <->
     rest <> [] /\ blankScan (last rest first) = true).
Proof.
  unfold processPdfClientSide.
  destruct (pageLoop_shape cfg Hrows (first :: rest) 1 [] false)
    as (contribs & u & Heq & Hf2).
  rewrite Heq. eexists. split; [reflexivity|]. simpl OcrResult.elements.
  inversion Hf2 as [|p c ps cs Hc Hcs]; subst. clear Hf2.
  change (interleave 1 (c :: cs)) with (c ++ interleave 2 cs).
  destruct (pageContribution_facts first c Hc) as [Hnb Hblank].
  pose proof (contributions_noBreak rest cs Hcs) as Hcsnb.
  pose proof (Forall2_length Hcs) as Hlen.
  split; [|split].
  - rewrite countBreaks_app, (countBreaks_none c Hnb),
      countBreaks_interleave_later by exact Hcsnb.
    simpl. lia.
  - destruct c as [|el c'].
    + simpl app. destruct cs as [|c1 cs'].
      * destruct rest; [|discriminate]. simpl. split; [discriminate|].
        intros [H _]. congruence.
      * destruct rest as [|p1 rest']; [discriminate|]. simpl.
        split; [|reflexivity]. intros _. split; [discriminate|].
        apply Hblank. reflexivity.
    + simpl. apply Forall_inv in Hnb.
      split.
      * intros H. injection H as ->. discriminate.
      * intros [_ H]. apply Hblank in H. discriminate.
  - destruct cs as [|c1 cs0].
    + destruct rest; [|discriminate]. simpl interleave. rewrite app_nil_r.
      split.
      * intros H. exfalso. exact (last_not_break c Hnb H).
      * intros [H _]. congruence.
    + destruct (@exists_last _ (c1 :: cs0) ltac:(discriminate))
        as (cs' & cl & Hsplit).
      rewrite Hsplit in *. clear Hsplit c1 cs0.
      apply Forall2_app_inv_r in Hcs.
      destruct Hcs as (rest' & lastPage & Hrest' & Hlast & ->).
      inversion Hlast as [|pl cl' ? ? Hcl Hnil]; subst.
      inversion Hnil; subst. clear Hlast Hnil.
      rewrite last_last.
      destruct (pageContribution_facts pl cl Hcl) as [Hclnb Hclblank].
      destruct (interleave_later_last 0 cs' cl) as (front & ->).
      destruct cl as [|el cl'].
      * replace (c ++ front ++ [pageBreak]) with ((c ++ front) ++ [pageBreak])
          by (rewrite <- app_assoc; reflexivity).
        rewrite nth_error_last_snoc.
        split; [|reflexivity]. intros _. split.
        -- destruct rest'; discriminate.
        -- apply Hclblank. reflexivity.
      * replace (c ++ front ++ pageBreak :: el :: cl')
          with ((c ++ front ++ [pageBreak]) ++ el :: cl')
          by (rewrite <- !app_assoc; reflexivity).
        rewrite nth_error_last_app by discriminate.
        split.
        -- intros H. exfalso. exact (last_not_break _ Hclnb H).
        -- intros [_ H]. apply Hclblank in H. discriminate.
Qed.

End PageBreakFacts.

(** C3, as stated, fails: of two scanned pages, the first with an empty OCR
    text, the assembled list starts with the pageBreak. *)
Lemma C3_counterexample :
  exists r,
    processPdfClientSide defaultConfig [scannedPage ""; scannedPage "b"]
    = Some r /\
    OcrResult.elements r = [pageBreak; paragraph "b" false] /\
    nth_error (OcrResult.elements r) 0 = Some pageBreak.
Proof. eexists. split; [reflexivity|]. split; reflexivity. Qed.

(** C3, amended. For N >= 1 pages, of any classification and content, the
    assembled list holds exactly N - 1 pageBreak elements.  A pageBreak is at
    index 0 exactly when N >= 2 and the first page is a scanned page whose
    OCR text has no non-blank line; a pageBreak is at the last index exactly
    when N >= 2 and the last page is such a page. *)
Theorem C3_page_breaks (first : Page.t) (rest : list Page.t) :
  exists r,
    processPdfClientSide defaultConfig (first :: rest) = Some r /\
    countBreaks (OcrResult.elements r) = length rest /\
    (nth_error (OcrResult.elements r) 0 = Some pageBreak <->
     rest <> [] /\ blankScan first = true) /\
    (nth_error (OcrResult.elements r) (length (OcrResult.elements r) - 1)
     = Some pageBreak <->
     rest <> [] /\ blankScan (last rest first) = true).
Proof. apply assembly_page_breaks. simpl; lia. Qed.

(** ** Scenarios *)

(** Two aligned rows become one table. *)
Example scenario_two_aligned_rows :
  buildDocElements defaultConfig
    [glyph 50 822 "A"; glyph 150 822 "B"; glyph 50 802 "C"; glyph 150 802 "D"]
    842
  = Some [table [["A"; "B"]; ["C"; "D"]] 2].
Proof. reflexivity. Qed.

(** Column drift within COL_TOLERANCE keeps the table; with a tolerance of
    10 the two rows are two paragraphs. *)
Example scenario_column_drift :
  buildDocElements defaultConfig
    [glyph 50 822 "A"; glyph 150 822 "B"; glyph 52 802 "C"; glyph 165 802 "D"]
    842
  = Some [table [["A"; "B"]; ["C"; "D"]] 2] /\
  buildDocElements (mkConfig 4 10 2 2 80)
    [glyph 50 822 "A"; glyph 150 822 "B"; glyph 52 802 "C"; glyph 165 802 "D"]
    842
  = Some [paragraph "A B" true; paragraph "C D" true].
Proof. split; reflexivity. Qed.

(** A single-column list is not a table. *)
Example scenario_single_column :
  buildDocElements defaultConfig
    [glyph 50 822 "w"; glyph 50 802 "x"; glyph 50 782 "y"; glyph 50 762 "z"]
    842
  = Some [paragraph "w" false; paragraph "x" false;
          paragraph "y" false; paragraph "z" false].
Proof. reflexivity. Qed.

(** A table interrupted by a short row. *)
Example scenario_short_row :
  buildDocElements defaultConfig
    [glyph 50 822 "a"; glyph 150 822 "b"; glyph 50 802 "c"; glyph 150 802 "d";
     glyph 50 782 "e"; glyph 150 782 "f"; glyph 50 762 "g"]
    842
  = Some [table [["a"; "b"]; ["c"; "d"]; ["e"; "f"]] 2; paragraph "g" false].
Proof. reflexivity. Qed.

(* ------------------------------------------------------------------ *)
(** * Further properties of the layout parser *)

(** ** Column anchors *)

Lemma lastOpt_split {A : Type} (l : list A) (a : A) :
  JsArray.lastOpt l = Some a -> exists l', l = l' ++ [a].
Proof.
  induction l as [|b r IH]; simpl; [discriminate|].
  destruct r as [|c r'].
  - intros H. injection H as ->. exists []. reflexivity.
  - intros H. destruct (IH H) as (l' & Hl'). exists (b :: l').
    rewrite Hl'. reflexivity.
Qed.

Lemma lastOpt_none {A : Type} (l : list A) :
  JsArray.lastOpt l = None -> l = [].
Proof.
  induction l as [|b r IH]; simpl; [reflexivity|].
  destruct r as [|c r']; [discriminate|].
  intros H. specialize (IH H). discriminate.
Qed.

Section AnchorFacts.

Variable cfg : Config.

Lemma mergeLoop_gapped (s bs : list Z) :
  gapped (COL_TOLERANCE cfg) bs ->
  gapped (COL_TOLERANCE cfg) (mergeLoop cfg s bs).
Proof.
  revert bs. induction s as [|x r IH]; intros bs Hg; simpl; [exact Hg|].
  destruct (JsArray.lastOpt bs) as [last|] eqn:Hlast.
  - destruct (Z.ltb_spec (COL_TOLERANCE cfg) (x - last)) as [Hfar|Hnear].
    + apply IH. destruct (lastOpt_split _ _ Hlast) as (l' & ->).
      apply gapped_snoc; assumption.
    + apply IH, Hg.
  - apply IH. rewrite (lastOpt_none _ Hlast). simpl. auto.
Qed.

Lemma mergeLoop_incl (s bs : list Z) (b : Z) :
  In b (mergeLoop cfg s bs) -> In b bs \/ In b s.
Proof.
  revert bs. induction s as [|x r IH]; intros bs; simpl; [auto|].
  assert (Hpush : In b (mergeLoop cfg r (bs ++ [x])) ->
                  In b bs \/ x = b \/ In b r).
  { intros H. apply IH in H. rewrite in_app_iff in H. simpl in H. tauto. }
  assert (Hskip : In b (mergeLoop cfg r bs) -> In b bs \/ x = b \/ In b r).
  { intros H. apply IH in H. tauto. }
  destruct (JsArray.lastOpt bs) as [last|]; [|exact Hpush].
  destruct (COL_TOLERANCE cfg <? x - last); assumption.
Qed.

Lemma mergeLoop_keeps (s bs : list Z) (b : Z) :
  In b bs -> In b (mergeLoop cfg s bs).
Proof.
  revert bs. induction s as [|x r IH]; intros bs Hb; simpl; [exact Hb|].
  destruct (JsArray.lastOpt bs) as [last|];
    [destruct (COL_TOLERANCE cfg <? x - last)|];
    apply IH; rewrite ?in_app_iff; auto.
Qed.

(** On a sorted input every value ends up at most the tolerance above an
    anchor. *)
Lemma mergeLoop_cover (s : list Z) :
  0 <= COL_TOLERANCE cfg ->
  StronglySorted Z.le s ->
  forall bs,
    (forall last, JsArray.lastOpt bs = Some last ->
                  Forall (fun x => last <= x) s) ->
    Forall (fun x => exists b, In b (mergeLoop cfg s bs) /\
                               0 <= x - b <= COL_TOLERANCE cfg) s.
Proof.
  intros Htol. induction 1 as [|x r Hs IH Hx]; intros bs Hlast; [constructor|].
  simpl.
  assert (Hpush : Forall (fun y => exists b,
                     In b (mergeLoop cfg r (bs ++ [x])) /\
                     0 <= y - b <= COL_TOLERANCE cfg) (x :: r)).
  { constructor.
    - exists x. split; [|lia].
      apply mergeLoop_keeps, in_or_app. right. left. reflexivity.
    - apply IH. intros last Hl. rewrite lastOpt_snoc in Hl.
      injection Hl as <-. exact Hx. }
  destruct (JsArray.lastOpt bs) as [last|] eqn:Hl; [|exact Hpush].
  destruct (Z.ltb_spec (COL_TOLERANCE cfg) (x - last)) as [Hfar|Hnear];
    [exact Hpush|].
  specialize (Hlast last eq_refl).
  apply Forall_cons_iff in Hlast. destruct Hlast as [Hlx Hlr].
  constructor.
  - exists last. split; [|lia].
    apply mergeLoop_keeps. destruct (lastOpt_split _ _ Hl) as (l' & ->).
    apply in_or_app. right. left. reflexivity.
  - apply IH. intros last' Hl'. rewrite Hl in Hl'. injection Hl' as <-.
    exact Hlr.
Qed.

Lemma gapped_sorted (tol : Z) (ys : list Z) :
  0 <= tol -> gapped tol ys -> StronglySorted Z.le ys.
Proof.
  intros Htol. induction ys as [|a r IH]; intros Hg; [constructor|].
  destruct Hg as [Ha Hr]. specialize (IH Hr).
  constructor; [exact IH|].
  destruct r as [|b r']; [constructor|].
  apply StronglySorted_inv in IH. destruct IH as [_ Hb].
  constructor; [lia|].
  eapply Forall_impl; [|exact Hb]. simpl. intros; lia.
Qed.

Lemma sort_of_sorted (l : list Z) :
  StronglySorted Z.le l -> JsArray.sort (fun a b => a - b) l = l.
Proof.
  induction 1 as [|a r Hs IH Ha]; [reflexivity|].
  simpl. rewrite IH. destruct r as [|b r']; [reflexivity|].
  simpl. apply Forall_inv in Ha.
  destruct (Z.leb_spec (a - b) 0); [reflexivity | lia].
Qed.

(** A list whose consecutive values are farther apart than the tolerance is
    its own list of anchors. *)
Lemma mergeLoop_of_gapped (s bs : list Z) :
  gapped (COL_TOLERANCE cfg) (bs ++ s) -> mergeLoop cfg s bs = bs ++ s.
Proof.
  revert bs. induction s as [|x r IH]; intros bs Hg; simpl.
  - rewrite app_nil_r. reflexivity.
  - assert (Hnext : mergeLoop cfg r (bs ++ [x]) = bs ++ x :: r).
    { rewrite IH; rewrite <- app_assoc; [reflexivity | exact Hg]. }
    destruct (JsArray.lastOpt bs) as [last|] eqn:Hl; [|exact Hnext].
    destruct (lastOpt_split _ _ Hl) as (l' & ->).
    rewrite <- app_assoc in Hg. simpl in Hg. apply gapped_middle in Hg.
    destruct (Z.ltb_spec (COL_TOLERANCE cfg) (x - last)); [exact Hnext | lia].
Qed.

Lemma mergeColumnBuckets_gapped (xs : list Z) :
  gapped (COL_TOLERANCE cfg) (mergeColumnBuckets cfg xs).
Proof. apply mergeLoop_gapped. exact I. Qed.

Lemma mergeColumnBuckets_incl (xs : list Z) :
  incl (mergeColumnBuckets cfg xs) xs.
Proof.
  intros b Hb. apply mergeLoop_incl in Hb. destruct Hb as [[]|Hb].
  exact (proj1 (sort_In _ _ _) Hb).
Qed.

Lemma mergeColumnBuckets_idem (xs : list Z) :
  0 <= COL_TOLERANCE cfg ->
  mergeColumnBuckets cfg (mergeColumnBuckets cfg xs)
  = mergeColumnBuckets cfg xs.
Proof.
  intros Htol.
  pose proof (mergeColumnBuckets_gapped xs) as Hg.
  unfold mergeColumnBuckets at 1.
  rewrite sort_of_sorted by (eapply gapped_sorted; eassumption).
  apply (mergeLoop_of_gapped _ []). exact Hg.
Qed.

Lemma mergeColumnBuckets_cover (xs : list Z) :
  0 <= COL_TOLERANCE cfg ->
  Forall (fun x => exists b, In b (mergeColumnBuckets cfg xs) /\
                             0 <= x - b <= COL_TOLERANCE cfg) xs.
Proof.
  intros Htol. unfold mergeColumnBuckets.
  pose proof (mergeLoop_cover _ Htol (sort_numeric_sorted xs) []
                ltac:(simpl; discriminate)) as H.
  rewrite Forall_forall in *. intros x Hx. apply H.
  apply (sort_In (fun u v => u - v)). exact Hx.
Qed.

End AnchorFacts.

(** X1. The anchors that mergeColumnBuckets returns are input values, and
    each anchor exceeds the one before it by more than COL_TOLERANCE. *)
Theorem X1_anchors_separated (cfg : Config) (xs : list Z) :
  incl (mergeColumnBuckets cfg xs) xs /\
  forall before after a b,
    mergeColumnBuckets cfg xs = before ++ a :: b :: after ->
    COL_TOLERANCE cfg < b - a.
Proof.
  split; [apply mergeColumnBuckets_incl|].
  intros before after a b Heq.
  pose proof (mergeColumnBuckets_gapped cfg xs) as Hg.
  rewrite Heq in Hg. eapply gapped_middle, Hg.
Qed.

(** X2. Every input value of mergeColumnBuckets lies at an anchor or at most
    COL_TOLERANCE (18) above one. *)
Theorem X2_anchors_cover (xs : list Z) :
  Forall (fun x => exists b,
            In b (mergeColumnBuckets defaultConfig xs) /\
            0 <= x - b <= COL_TOLERANCE defaultConfig) xs.
Proof. apply mergeColumnBuckets_cover. simpl; lia. Qed.

(** X3. Bucketing is idempotent: the anchors of a list of anchors are that
    list. *)
Theorem X3_anchors_idempotent (xs : list Z) :
  mergeColumnBuckets defaultConfig (mergeColumnBuckets defaultConfig xs)
  = mergeColumnBuckets defaultConfig xs.
Proof. apply mergeColumnBuckets_idem. simpl; lia. Qed.

(** ** Nearest anchor *)

Lemma nearestLoop_spec (x : Z) (rest : list Z) :
  forall (pre : list Z) (best : nat) (d : Z),
  (best < length pre)%nat ->
  d = Z.abs (x - nth best pre 0) ->
  (forall j, (j < length pre)%nat -> d <= Z.abs (x - nth j pre 0)) ->
  (forall j, (j < best)%nat -> d < Z.abs (x - nth j pre 0)) ->
  let k := nearestLoop x rest (length pre) best d in
  (k < length (pre ++ rest))%nat /\
  (forall j, (j < length (pre ++ rest))%nat ->
             Z.abs (x - nth k (pre ++ rest) 0)
             <= Z.abs (x - nth j (pre ++ rest) 0)) /\
  (forall j, (j < k)%nat ->
             Z.abs (x - nth k (pre ++ rest) 0)
             < Z.abs (x - nth j (pre ++ rest) 0)).
Proof.
  induction rest as [|b r IH]; intros pre best d Hbest Hd Hmin Hstrict; simpl.
  - rewrite app_nil_r. subst d. auto.
  - replace (pre ++ b :: r) with ((pre ++ [b]) ++ r)
      by (rewrite <- app_assoc; reflexivity).
    assert (Hlen : length (pre ++ [b]) = S (length pre))
      by (rewrite length_app; simpl; lia).
    assert (Hold : forall j, (j < length pre)%nat ->
                             nth j (pre ++ [b]) 0 = nth j pre 0)
      by (intros j Hj; apply app_nth1, Hj).
    assert (Hnew : nth (length pre) (pre ++ [b]) 0 = b)
      by (rewrite app_nth2, Nat.sub_diag by lia; reflexivity).
    destruct (Z.ltb_spec (Z.abs (x - b)) d) as [Hlt|Hge]; rewrite <- Hlen.
    + apply IH.
      * lia.
      * rewrite Hnew. reflexivity.
      * intros j Hj. rewrite Hlen in Hj.
        destruct (Nat.eq_dec j (length pre)) as [->|Hne].
        -- rewrite Hnew. lia.
        -- rewrite Hold by lia. specialize (Hmin j ltac:(lia)). lia.
      * intros j Hj. rewrite Hold by lia. specialize (Hmin j Hj). lia.
    + apply IH.
      * lia.
      * rewrite Hold by lia. exact Hd.
      * intros j Hj. rewrite Hlen in Hj.
        destruct (Nat.eq_dec j (length pre)) as [->|Hne].
        -- rewrite Hnew. lia.
        -- rewrite Hold by lia. apply Hmin. lia.
      * intros j Hj. rewrite Hold by lia. apply Hstrict, Hj.
Qed.

(** X4. On a non-empty list of anchors nearestBucket returns an index in
    range whose anchor is nearest to x, and among the nearest anchors the one
    of lowest index. *)
Theorem X4_nearestBucket_nearest (x b0 : Z) (more : list Z) :
  let buckets := b0 :: more in
  let k := nearestBucket x buckets in
  (k < length buckets)%nat /\
  (forall j, (j < length buckets)%nat ->
             Z.abs (x - nth k buckets 0) <= Z.abs (x - nth j buckets 0)) /\
  (forall j, (j < k)%nat ->
             Z.abs (x - nth k buckets 0) < Z.abs (x - nth j buckets 0)).
Proof.
  intros buckets k.
  apply (nearestLoop_spec x more [b0] 0%nat (Z.abs (x - b0))).
  - simpl; lia.
  - reflexivity.
  - intros j Hj. simpl in Hj. replace j with 0%nat by lia. simpl. lia.
  - intros j Hj. lia.
Qed.

(** ** Lines *)

Section LineFacts.

Variable cfg : Config.

Lemma flat_map_items_snoc (lines : list LineGroup.t) (l : LineGroup.t) :
  flat_map LineGroup.items (lines ++ [l])
  = flat_map LineGroup.items lines ++ LineGroup.items l.
Proof. rewrite flat_map_app. simpl. rewrite app_nil_r. reflexivity. Qed.

Lemma groupLoop_perm (rest : list PositionedItem.t) :
  forall (lines : list LineGroup.t) (currentLine : list PositionedItem.t)
         (currentY : Z),
  Permutation
    (flat_map LineGroup.items (groupLoop cfg rest lines currentLine currentY))
    (flat_map LineGroup.items lines ++ currentLine ++ rest).
Proof.
  induction rest as [|item rest IH]; intros lines currentLine currentY; simpl.
  - rewrite flat_map_items_snoc, app_nil_r. simpl.
    apply Permutation_app_head, sort_perm.
  - destruct (_ <=? _).
    + eapply perm_trans; [apply IH|]. rewrite <- app_assoc. simpl.
      apply Permutation_refl.
    + eapply perm_trans; [apply IH|].
      rewrite flat_map_items_snoc, <- app_assoc. simpl.
      apply Permutation_app_head, Permutation_app_tail, sort_perm.
Qed.

Lemma groupIntoLines_perm (items : list PositionedItem.t) :
  Permutation (flat_map LineGroup.items (groupIntoLines cfg items)) items.
Proof.
  unfold groupIntoLines. destruct items as [|a r]; [apply perm_nil|].
  simpl length. simpl Nat.eqb.
  pose proof (sort_perm byY (a :: r)) as Hp.
  destruct (JsArray.sort byY (a :: r)) as [|first rest].
  - apply Permutation_nil in Hp. discriminate.
  - eapply perm_trans; [apply groupLoop_perm|]. simpl. exact Hp.
Qed.

Lemma closeLine_shape (currentY : Z) (currentLine : list PositionedItem.t) :
  currentLine <> [] ->
  Forall (fun it => currentY <= PositionedItem.y it
                    <= currentY + ROW_TOLERANCE cfg) currentLine ->
  lineShape cfg (closeLine currentY currentLine).
Proof.
  intros Hne Hin. unfold lineShape, closeLine. simpl. split; [|split].
  - intros Hnil. apply (f_equal (@length _)) in Hnil.
    rewrite sort_length in Hnil. destruct currentLine; [congruence | discriminate].
  - exact (sort_sorted PositionedItem.x currentLine).
  - eapply Permutation_Forall; [apply Permutation_sym, sort_perm | exact Hin].
Qed.

Lemma groupLoop_shape (rest : list PositionedItem.t) :
  0 <= ROW_TOLERANCE cfg ->
  StronglySorted (fun a b => PositionedItem.y a <= PositionedItem.y b) rest ->
  forall (lines : list LineGroup.t) (currentLine : list PositionedItem.t)
         (currentY : Z),
  Forall (fun it => currentY <= PositionedItem.y it) rest ->
  currentLine <> [] ->
  Forall (fun it => currentY <= PositionedItem.y it
                    <= currentY + ROW_TOLERANCE cfg) currentLine ->
  Forall (lineShape cfg) lines ->
  Forall (lineShape cfg) (groupLoop cfg rest lines currentLine currentY).
Proof.
  intros Htol. induction 1 as [|item rest Hs IH Hitem];
    intros lines currentLine currentY Hge Hne Hcur Hlines; simpl.
  - apply Forall_app. split; [exact Hlines|].
    constructor; [|constructor]. apply closeLine_shape; assumption.
  - apply Forall_cons_iff in Hge. destruct Hge as [Hi Hge].
    destruct (Z.leb_spec (Z.abs (PositionedItem.y item - currentY))
                (ROW_TOLERANCE cfg)) as [Hnear|Hfar].
    + apply IH; auto.
      * destruct currentLine; discriminate.
      * apply Forall_app. split; [exact Hcur|].
        constructor; [lia | constructor].
    + apply IH; auto.
      * discriminate.
      * constructor; [lia | constructor].
      * apply Forall_app. split; [exact Hlines|].
        constructor; [|constructor]. apply closeLine_shape; assumption.
Qed.

Lemma groupIntoLines_shape (items : list PositionedItem.t) :
  0 <= ROW_TOLERANCE cfg ->
  Forall (lineShape cfg) (groupIntoLines cfg items).
Proof.
  intros Htol. unfold groupIntoLines.
  destruct (length items =? 0)%nat; [constructor|].
  pose proof (sort_byY_sorted items) as Hs.
  destruct (JsArray.sort byY items) as [|first rest]; [constructor|].
  apply StronglySorted_inv in Hs. destruct Hs as [Hs Hfirst].
  apply groupLoop_shape; auto.
  - discriminate.
  - constructor; [lia | constructor].
Qed.

Lemma gapped_strong (tol : Z) (ys : list Z) :
  0 <= tol -> gapped tol ys ->
  StronglySorted (fun u v => tol < v - u) ys.
Proof.
  intros Htol. induction ys as [|a r IH]; intros Hg; [constructor|].
  destruct Hg as [Ha Hr]. specialize (IH Hr).
  constructor; [exact IH|].
  destruct r as [|b r']; [constructor|].
  apply StronglySorted_inv in IH. destruct IH as [_ Hb].
  constructor; [lia|].
  eapply Forall_impl; [|exact Hb]. simpl. intros; lia.
Qed.

(** Two lines of a gapped list that hold items of equal y are the same
    line. *)
Lemma lines_same_y (lines : list LineGroup.t) :
  StronglySorted (fun u v => ROW_TOLERANCE cfg < v - u)
    (map LineGroup.y lines) ->
  Forall (lineShape cfg) lines ->
  forall (l1 l2 : LineGroup.t) (a b : PositionedItem.t),
  In l1 lines -> In l2 lines ->
  In a (LineGroup.items l1) -> In b (LineGroup.items l2) ->
  PositionedItem.y a = PositionedItem.y b -> l1 = l2.
Proof.
  induction lines as [|l0 r IH]; intros Hs Hshape l1 l2 a b H1 H2 Ha Hb Hy;
    [destruct H1|].
  simpl in Hs. apply StronglySorted_inv in Hs. destruct Hs as [Hs Hl0].
  apply Forall_cons_iff in Hshape. destruct Hshape as [Hs0 Hsr].
  rewrite Forall_forall in Hl0.
  assert (Hcross : forall l a' b',
            In l r -> In a' (LineGroup.items l0) -> In b' (LineGroup.items l) ->
            PositionedItem.y a' <> PositionedItem.y b').
  { intros l a' b' Hl Ha' Hb'.
    specialize (Hl0 (LineGroup.y l) (in_map _ _ _ Hl)).
    destruct Hs0 as (_ & _ & Hin0). rewrite Forall_forall in Hin0.
    specialize (Hin0 _ Ha').
    rewrite Forall_forall in Hsr. destruct (Hsr _ Hl) as (_ & _ & Hinl).
    rewrite Forall_forall in Hinl. specialize (Hinl _ Hb'). lia. }
  destruct H1 as [<-|H1], H2 as [<-|H2].
  - reflexivity.
  - exfalso. exact (Hcross _ _ _ H2 Ha Hb Hy).
  - exfalso. exact (Hcross _ _ _ H1 Hb Ha (eq_sym Hy)).
  - eapply IH; eauto.
Qed.

Lemma groupIntoLines_same_y (items : list PositionedItem.t)
  (a b : PositionedItem.t) :
  0 <= ROW_TOLERANCE cfg ->
  In a items -> In b items -> PositionedItem.y a = PositionedItem.y b ->
  exists line, In line (groupIntoLines cfg items) /\
               In a (LineGroup.items line) /\ In b (LineGroup.items line).
Proof.
  intros Htol Ha Hb Hy.
  pose proof (groupIntoLines_perm items) as Hp.
  apply (Permutation_in _ (Permutation_sym Hp)) in Ha, Hb.
  apply in_flat_map in Ha, Hb.
  destruct Ha as (l1 & Hl1 & Ha). destruct Hb as (l2 & Hl2 & Hb).
  assert (l1 = l2) as <-.
  { eapply (lines_same_y (groupIntoLines cfg items)); eauto.
    - apply gapped_strong; [exact Htol | apply groupIntoLines_gapped].
    - apply groupIntoLines_shape, Htol. }
  eauto.
Qed.

End LineFacts.

(** X5. groupIntoLines neither loses nor duplicates an item: the items of
    its lines, taken together, are a permutation of the input items. *)
Theorem X5_lines_keep_items (cfg : Config) (items : list PositionedItem.t) :
  Permutation (flat_map LineGroup.items (groupIntoLines cfg items)) items.
Proof. apply groupIntoLines_perm. Qed.

(** X6. Every line of groupIntoLines has at least one item, has its items in
    ascending x, and holds only items whose y lies between the line's y and
    that y plus ROW_TOLERANCE (4). *)
Theorem X6_line_invariant (items : list PositionedItem.t) :
  Forall (fun line =>
            LineGroup.items line <> [] /\
            StronglySorted
              (fun a b => PositionedItem.x a <= PositionedItem.x b)
              (LineGroup.items line) /\
            Forall (fun it =>
                      LineGroup.y line <= PositionedItem.y it
                      <= LineGroup.y line + ROW_TOLERANCE defaultConfig)
              (LineGroup.items line))
    (groupIntoLines defaultConfig items).
Proof. apply (groupIntoLines_shape defaultConfig items). simpl; lia. Qed.

(** X7. Two items with the same y are always grouped into the same line. *)
Theorem X7_same_y_same_line (items : list PositionedItem.t)
  (a b : PositionedItem.t) :
  In a items -> In b items -> PositionedItem.y a = PositionedItem.y b ->
  exists line, In line (groupIntoLines defaultConfig items) /\
               In a (LineGroup.items line) /\ In b (LineGroup.items line).
Proof. apply groupIntoLines_same_y. simpl; lia. Qed.

(** X7 on the grid of two rows, for the two items of the lower row. *)
Lemma X7_same_y_same_line_witness :
  In (cell 50 30 "C") gridItems /\ In (cell 150 30 "D") gridItems /\
  PositionedItem.y (cell 50 30 "C") = PositionedItem.y (cell 150 30 "D") /\
  exists line, In line (groupIntoLines defaultConfig gridItems) /\
               In (cell 50 30 "C") (LineGroup.items line) /\
               In (cell 150 30 "D") (LineGroup.items line).
Proof.
  assert (Ha : In (cell 50 30 "C") gridItems) by (simpl; auto).
  assert (Hb : In (cell 150 30 "D") gridItems) by (simpl; auto).
  split; [exact Ha|]. split; [exact Hb|]. split; [reflexivity|].
  exact (X7_same_y_same_line gridItems _ _ Ha Hb eq_refl).
Defined.

(** ** Blocks *)

Section BlockFacts.

Variable cfg : Config.

Lemma extractLoop_cols (rest acc : list LineGroup.t) (b : list Z) :
  Forall (fun l => (MIN_TABLE_COLS cfg <= length (LineGroup.items l))%nat) acc ->
  Forall (fun l => (MIN_TABLE_COLS cfg <= length (LineGroup.items l))%nat)
    (extractLoop cfg rest acc b).
Proof.
  revert acc b. induction rest as [|line rest IH]; intros acc b Hacc; simpl;
    [exact Hacc|].
  destruct (Nat.ltb_spec (length (LineGroup.items line)) (MIN_TABLE_COLS cfg))
    as [|Hcols]; [exact Hacc|].
  assert (Hnext : Forall (fun l => (MIN_TABLE_COLS cfg
                                    <= length (LineGroup.items l))%nat)
                    (acc ++ [line])).
  { apply Forall_app. split; [exact Hacc|]. constructor; [exact Hcols|constructor]. }
  destruct (length b =? 0)%nat.
  - destruct (_ <? _)%nat; [exact Hacc | apply IH, Hnext].
  - destruct (_ <? _)%nat; [exact Hacc | apply IH, Hnext].
Qed.

Lemma tryExtractTable_shape (lines tl : list LineGroup.t) (start : nat) :
  tryExtractTable cfg lines start = Some tl -> blockShape cfg (TableBlock tl).
Proof.
  intros Htry.
  destruct (tryExtractTable_Some cfg _ _ _ Htry) as (_ & Hrows & _ & _ & Hex).
  split; [exact Hrows|]. rewrite Hex. apply extractLoop_cols. constructor.
Qed.

Lemma segmentIntoBlocks_shape (lines : list LineGroup.t)
  (blocks : list Block) :
  segmentIntoBlocks cfg lines = Some blocks -> Forall (blockShape cfg) blocks.
Proof.
  unfold segmentIntoBlocks.
  apply segmentLoop_Forall; [| |constructor].
  - intros start tl. apply tryExtractTable_shape.
  - intros l _. reflexivity.
Qed.

(** When no line has MIN_TABLE_COLS items there is no table block. *)
Lemma segment_all_para (blocks : list Block) :
  (1 <= MIN_TABLE_ROWS cfg)%nat ->
  Forall (blockShape cfg) blocks ->
  Forall (fun l => (length (LineGroup.items l) < MIN_TABLE_COLS cfg)%nat)
    (concat (map blockLines blocks)) ->
  blocks = map (fun l => ParaBlock [l]) (concat (map blockLines blocks)).
Proof.
  intros Hrows. induction 1 as [|b bs Hb _ IH]; intros Hnarrow; [reflexivity|].
  simpl in Hnarrow. apply Forall_app in Hnarrow. destruct Hnarrow as [Hb' Hbs].
  simpl. rewrite map_app, <- (IH Hbs). f_equal.
  destruct b as [ls|ls]; simpl in *.
  - exfalso. destruct Hb as [Hlen Hcols].
    destruct ls as [|l ls']; [simpl in Hlen; lia|].
    apply Forall_inv in Hb', Hcols. lia.
  - destruct ls as [|l [|l' ls']]; try discriminate. reflexivity.
Qed.

End BlockFacts.

(** X8. Every table block of segmentIntoBlocks has at least MIN_TABLE_ROWS
    (2) lines, each with at least MIN_TABLE_COLS (2) items; every paragraph
    block has exactly one line. *)
Theorem X8_block_shapes (lines : list LineGroup.t) :
  exists blocks,
    segmentIntoBlocks defaultConfig lines = Some blocks /\
    Forall (fun b =>
              match b with
              | TableBlock ls =>
                  (MIN_TABLE_ROWS defaultConfig <= length ls)%nat /\
                  Forall (fun l => (MIN_TABLE_COLS defaultConfig
                                    <= length (LineGroup.items l))%nat) ls
              | ParaBlock ls => length ls = 1%nat
              end) blocks.
Proof.
  destruct (segmentIntoBlocks_total_cover defaultConfig lines)
    as (blocks & Hseg & _); [simpl; lia|].
  exists blocks. split; [exact Hseg|].
  exact (segmentIntoBlocks_shape defaultConfig lines blocks Hseg).
Qed.

(** X9. When every line has fewer than MIN_TABLE_COLS (2) items,
    segmentIntoBlocks returns one paragraph block per line and no table
    block. *)
Theorem X9_narrow_lines_are_paragraphs (lines : list LineGroup.t) :
  Forall (fun l => (length (LineGroup.items l)
                    < MIN_TABLE_COLS defaultConfig)%nat) lines ->
  segmentIntoBlocks defaultConfig lines
  = Some (map (fun l => ParaBlock [l]) lines).
Proof.
  intros Hnarrow.
  destruct (segmentIntoBlocks_total_cover defaultConfig lines)
    as (blocks & Hseg & Hcov); [simpl; lia|].
  rewrite Hseg. f_equal. rewrite <- Hcov.
  apply (segment_all_para defaultConfig); [simpl; lia | |].
  - exact (segmentIntoBlocks_shape defaultConfig lines blocks Hseg).
  - rewrite Hcov. exact Hnarrow.
Qed.

(** X9 on two lines of one item each. *)
Lemma X9_narrow_lines_are_paragraphs_witness :
  Forall (fun l => (length (LineGroup.items l)
                    < MIN_TABLE_COLS defaultConfig)%nat)
    [LineGroup.mk 10 [cell 50 10 "w"]; LineGroup.mk 30 [cell 50 30 "x"]] /\
  segmentIntoBlocks defaultConfig
    [LineGroup.mk 10 [cell 50 10 "w"]; LineGroup.mk 30 [cell 50 30 "x"]]
  = Some (map (fun l => ParaBlock [l])
            [LineGroup.mk 10 [cell 50 10 "w"]; LineGroup.mk 30 [cell 50 30 "x"]]).
Proof.
  assert (H : Forall (fun l => (length (LineGroup.items l)
                                < MIN_TABLE_COLS defaultConfig)%nat)
                [LineGroup.mk 10 [cell 50 10 "w"];
                 LineGroup.mk 30 [cell 50 30 "x"]]).
  { constructor; [simpl; lia|]. constructor; [simpl; lia|]. constructor. }
  split; [exact H|].
  exact (X9_narrow_lines_are_paragraphs _ H).
Defined.

(** ** Elements *)

Lemma trimEnd_idem (s : string) :
  JsString.trimEnd (JsString.trimEnd s) = JsString.trimEnd s.
Proof.
  induction s as [|c r IH]; simpl; [reflexivity|].
  destruct (JsString.trimEnd r) as [|d t] eqn:Ht.
  - destruct (JsString.isWhiteSpace c) eqn:Hc; simpl; [reflexivity|].
    rewrite Hc. reflexivity.
  - change (JsString.trimEnd (String c (String d t)))
      with (match JsString.trimEnd (String d t) with
            | EmptyString =>
                if JsString.isWhiteSpace c then EmptyString
                else String c EmptyString
            | r' => String c r'
            end).
    rewrite IH. reflexivity.
Qed.

Lemma trimStart_noLeading (s : string) : noLeadingWhite (JsString.trimStart s).
Proof.
  induction s as [|c r IH]; simpl; [exact I|].
  destruct (JsString.isWhiteSpace c) eqn:Hc; [exact IH | exact Hc].
Qed.

Lemma trimEnd_noLeading (s : string) :
  noLeadingWhite s -> noLeadingWhite (JsString.trimEnd s).
Proof.
  destruct s as [|c r]; simpl; [auto|]. intros Hc.
  destruct (JsString.trimEnd r); [rewrite Hc|]; exact Hc.
Qed.

Lemma trimStart_fixed (s : string) :
  noLeadingWhite s -> JsString.trimStart s = s.
Proof. destruct s as [|c r]; simpl; [auto|]. intros ->. reflexivity. Qed.

Lemma trim_idem (s : string) :
  JsString.trim (JsString.trim s) = JsString.trim s.
Proof.
  unfold JsString.trim.
  rewrite (trimStart_fixed (JsString.trimEnd (JsString.trimStart s))).
  - apply trimEnd_idem.
  - apply trimEnd_noLeading, trimStart_noLeading.
Qed.

(** X11. isHeadingText does not change when its argument is trimmed
    first. *)
Theorem X11_heading_trim (cfg : Config) (text : string) :
  isHeadingText cfg (JsString.trim text) = isHeadingText cfg text.
Proof. unfold isHeadingText. rewrite trim_idem. reflexivity. Qed.

Lemma allWhite_concat_white (sep : string) (l : list string) :
  allWhite sep = true ->
  allWhite (String.concat sep l) = forallb allWhite l.
Proof.
  intros Hsep. induction l as [|s r IH]; [reflexivity|].
  destruct r as [|s' r'].
  - simpl. rewrite andb_true_r. reflexivity.
  - change (String.concat sep (s :: s' :: r'))
      with (s ++ sep ++ String.concat sep (s' :: r'))%string.
    rewrite !allWhite_app, Hsep, IH. reflexivity.
Qed.

Lemma toPositioned_nonblank (items : list RawItem) (H : Z) :
  Forall (fun it => allWhite (PositionedItem.str it) = false)
    (toPositioned items H).
Proof.
  unfold toPositioned. rewrite toPositionedLoop_spec. simpl.
  apply Forall_map, Forall_forall. intros item Hin.
  apply filter_In in Hin. destruct Hin as [_ Hnb]. simpl.
  unfold nonBlank in Hnb.
  destruct (allWhite (TextItem.str item)) eqn:Hw; [|reflexivity].
  apply trim_empty in Hw. rewrite Hw in Hnb. discriminate.
Qed.

Section ElementFacts.

Variable cfg : Config.
Hypothesis Hrows : (1 <= MIN_TABLE_ROWS cfg)%nat.
Hypothesis Htol : 0 <= ROW_TOLERANCE cfg.

(** The text of the paragraph of a line that has an item with a non-blank
    text is not empty. *)
Lemma line_text_nonempty (line : LineGroup.t) :
  LineGroup.items line <> [] ->
  Forall (fun it => allWhite (PositionedItem.str it) = false)
    (LineGroup.items line) ->
  JsString.trim
    (JsString.join " " (map PositionedItem.str (LineGroup.items line)))
  <> EmptyString.
Proof.
  intros Hne Hnb Hempty. apply trim_empty in Hempty.
  rewrite join_concat, allWhite_concat_white in Hempty by reflexivity.
  destruct (LineGroup.items line) as [|it r]; [congruence|].
  apply Forall_inv in Hnb. simpl in Hempty. rewrite Hnb in Hempty.
  discriminate.
Qed.

Lemma buildDocElements_paragraphs (items : list RawItem) (pageHeight : Z) :
  exists els,
    buildDocElements cfg items pageHeight = Some els /\
    forall text isHeading,
      In (paragraph text isHeading) els ->
      text <> EmptyString /\ JsString.trim text = text /\
      isHeading = isHeadingText cfg text.
Proof.
  unfold buildDocElements.
  destruct (length (toPositioned items pageHeight) =? 0)%nat.
  { exists []. split; [reflexivity|]. intros ? ? []. }
  set (positioned := toPositioned items pageHeight).
  set (lines := groupIntoLines cfg positioned).
  destruct (segmentIntoBlocks_total_cover cfg lines Hrows) as (blocks & Hseg & _).
  rewrite Hseg. eexists. split; [reflexivity|].
  intros text isHeading Hin. rewrite emitBlocks_flat in Hin. simpl in Hin.
  apply in_flat_map in Hin. destruct Hin as (b & Hb & Hin).
  assert (HP : Forall (fun b => forall text isHeading,
                 In (paragraph text isHeading) (blockElements cfg b) ->
                 text <> EmptyString /\ JsString.trim text = text /\
                 isHeading = isHeadingText cfg text) blocks).
  { unfold segmentIntoBlocks in Hseg.
    eapply segmentLoop_Forall; [| |constructor|exact Hseg].
    - intros start tl _ t h [Heq|[]]. discriminate.
    - intros l Hl t h [Heq|[]]. injection Heq as <- <-.
      split; [|split; [apply trim_idem | reflexivity]].
      pose proof (groupIntoLines_shape cfg positioned Htol) as Hshape.
      rewrite Forall_forall in Hshape. destruct (Hshape l Hl) as (Hne & _ & _).
      apply line_text_nonempty; [exact Hne|].
      apply Forall_forall. intros it Hit.
      pose proof (toPositioned_nonblank items pageHeight) as Hnb.
      rewrite Forall_forall in Hnb. apply Hnb.
      apply (Permutation_in _ (groupIntoLines_perm cfg positioned)).
      apply in_flat_map. exists l. split; assumption. }
  rewrite Forall_forall in HP. exact (HP b Hb text isHeading Hin).
Qed.

Lemma blockElements_rendered (b : Block) :
  list_sum (map renderedLines (blockElements cfg b)) = length (blockLines b).
Proof.
  destruct b as [ls|ls]; simpl.
  - rewrite length_map. lia.
  - unfold paraBlockToElements. rewrite map_map. simpl.
    induction ls as [|l r IH]; simpl; [reflexivity | rewrite IH; reflexivity].
Qed.

Lemma buildDocElements_rendered (items : list RawItem) (pageHeight : Z) :
  exists els,
    buildDocElements cfg items pageHeight = Some els /\
    list_sum (map renderedLines els)
    = length (groupIntoLines cfg (toPositioned items pageHeight)).
Proof.
  unfold buildDocElements.
  destruct (toPositioned items pageHeight) as [|p ps] eqn:Hp.
  { exists []. split; reflexivity. }
  simpl length. simpl Nat.eqb.
  destruct (segmentIntoBlocks_total_cover cfg (groupIntoLines cfg (p :: ps)) Hrows)
    as (blocks & Hseg & Hcov).
  rewrite Hseg. eexists. split; [reflexivity|].
  rewrite emitBlocks_flat. simpl. rewrite <- Hcov. clear Hseg Hcov Hp.
  induction blocks as [|b bs IH]; simpl; [reflexivity|].
  rewrite map_app, list_sum_app, length_app, IH, blockElements_rendered.
  reflexivity.
Qed.

End ElementFacts.

(** X10. Every paragraph that buildDocElements emits has a text that is not
    empty and is already trimmed, and its heading flag is isHeadingText of
    that text. *)
Theorem X10_paragraph_texts (items : list RawItem) (pageHeight : Z) :
  exists els,
    buildDocElements defaultConfig items pageHeight = Some els /\
    forall text isHeading,
      In (paragraph text isHeading) els ->
      text <> EmptyString /\ JsString.trim text = text /\
      isHeading = isHeadingText defaultConfig text.
Proof. apply buildDocElements_paragraphs; simpl; lia. Qed.

(** X12. buildDocElements renders every line exactly once: the rows of its
    tables and its paragraphs together number the lines that groupIntoLines
    makes of the normalized items. *)
Theorem X12_lines_rendered_once (items : list RawItem) (pageHeight : Z) :
  exists els,
    buildDocElements defaultConfig items pageHeight = Some els /\
    list_sum (map renderedLines els)
    = length (groupIntoLines defaultConfig (toPositioned items pageHeight)).
Proof. apply buildDocElements_rendered. simpl; lia. Qed.

(** ** The result of the page assembly *)

Lemma pageLoop_usedOcr (cfg : Config) (pages : list Page.t) :
  forall (pageNum : nat) (allElements els : list DocElement)
         (usedOcr usedOcr' : bool),
  pageLoop cfg pages pageNum allElements usedOcr = Some (els, usedOcr') ->
  usedOcr' = usedOcr || existsb (fun p => negb (isDigital p)) pages.
Proof.
  induction pages as [|page rest IH];
    intros pageNum allElements els usedOcr usedOcr'.
  - simpl. intros H. injection H as _ <-. rewrite orb_false_r. reflexivity.
  - cbn -[Nat.leb Nat.ltb TEXT_THRESHOLD]. unfold isDigital at 1.
    destruct (TEXT_THRESHOLD <=? _)%nat; simpl negb.
    + destruct (buildDocElements cfg _ _); [|discriminate].
      intros H. apply IH in H. rewrite H. reflexivity.
    + intros H. apply IH in H. rewrite H. simpl. rewrite orb_true_r.
      reflexivity.
Qed.

(** X13. processPdfClientSide reports the number of pages as pageCount, the
    serialization of its elements as text, and usedOcr exactly when some
    page has fewer than TEXT_THRESHOLD (30) characters of embedded text. *)
Theorem X13_result_fields (pages : list Page.t) :
  exists r,
    processPdfClientSide defaultConfig pages = Some r /\
    OcrResult.pageCount r = length pages /\
    OcrResult.text r = elementsToText (OcrResult.elements r) /\
    (OcrResult.usedOcr r = true <->
     exists page, In page pages /\
       (String.length (embeddedRaw (Page.items page)) < TEXT_THRESHOLD)%nat).
Proof.
  unfold processPdfClientSide.
  destruct (pageLoop_shape defaultConfig ltac:(simpl; lia) pages 1 [] false)
    as (contribs & u & Heq & _).
  rewrite Heq. eexists. split; [reflexivity|].
  split; [reflexivity|]. split; [reflexivity|]. simpl OcrResult.usedOcr.
  apply pageLoop_usedOcr in Heq. simpl in Heq. subst u.
  rewrite existsb_exists. split.
  - intros (page & Hin & Hs). exists page. split; [exact Hin|].
    unfold isDigital in Hs. apply negb_true_iff, Nat.leb_gt in Hs. exact Hs.
  - intros (page & Hin & Hs). exists page. split; [exact Hin|].
    unfold isDigital. apply negb_true_iff, Nat.leb_gt. exact Hs.
Qed.

(* ------------------------------------------------------------------ *)
(** * Properties of the Word document generation *)

Lemma buildDocChildrenLoop_flat (elements : list DocElement)
  (children : list DocChild) :
  buildDocChildrenLoop elements children
  = children ++ flat_map elementChildren elements.
Proof.
  revert children. induction elements as [|el rest IH]; intros children; simpl.
  - rewrite app_nil_r. reflexivity.
  - destruct el as [text h|rows n|].
    + simpl. destruct (negb (JsString.truthy (JsString.trim text))); simpl.
      * apply IH.
      * rewrite IH, <- app_assoc. reflexivity.
    + rewrite IH, <- !app_assoc. reflexivity.
    + rewrite IH, <- app_assoc. reflexivity.
Qed.

Lemma buildDocChildren_flat (elements : list DocElement) :
  buildDocChildren elements = flat_map elementChildren elements.
Proof. unfold buildDocChildren. apply buildDocChildrenLoop_flat. Qed.

Lemma breakChildren_count (elements : list DocElement) :
  length (filter isBreakChild (buildDocChildren elements))
  = countBreaks elements.
Proof.
  rewrite buildDocChildren_flat. unfold countBreaks.
  induction elements as [|el rest IH]; [reflexivity|].
  simpl flat_map. rewrite filter_app, length_app, IH.
  destruct el as [text h|rows n|]; simpl; try reflexivity.
  destruct (negb (JsString.truthy (JsString.trim text))); reflexivity.
Qed.

(** X14. buildDocChildren turns each pageBreak element into one paragraph
    with pageBreakBefore and gives that flag to no other child. *)
Theorem X14_docx_page_breaks (elements : list DocElement) :
  length (filter isBreakChild (buildDocChildren elements))
  = countBreaks elements.
Proof. apply breakChildren_count. Qed.

(** X15. The Word children built from the elements of a document of N >= 1
    pages hold exactly N - 1 page-break paragraphs. *)
Theorem X15_docx_breaks_per_document (first : Page.t) (rest : list Page.t) :
  exists r,
    processPdfClientSide defaultConfig (first :: rest) = Some r /\
    length (filter isBreakChild (buildDocChildren (OcrResult.elements r)))
    = length rest.
Proof.
  destruct (assembly_page_breaks defaultConfig ltac:(simpl; lia) first rest)
    as (r & Hr & Hcount & _).
  exists r. split; [exact Hr|]. rewrite breakChildren_count. exact Hcount.
Qed.

Lemma children_count (elements : list DocElement) :
  Forall (fun el => isPageBreak el = false) elements ->
  (forall text h, In (paragraph text h) elements ->
                  JsString.trim text <> EmptyString) ->
  length (buildDocChildren elements)
  = (length (filter isParagraphElement elements)
     + 3 * length (filter isTableElement elements))%nat.
Proof.
  rewrite buildDocChildren_flat.
  induction elements as [|el rest IH]; intros Hnb Hpar; [reflexivity|].
  apply Forall_cons_iff in Hnb. destruct Hnb as [Hel Hnb].
  simpl flat_map. rewrite length_app, IH;
    [|exact Hnb | intros t h Hin; apply (Hpar t h); right; exact Hin].
  destruct el as [text h|rows n|]; simpl in *; [| lia | discriminate].
  specialize (Hpar text h (or_introl eq_refl)).
  destruct (JsString.trim text); [congruence|]. simpl. lia.
Qed.

(** X16. buildDocChildren drops nothing that buildDocElements emits: each
    paragraph gives one child and each table three (the table between two
    spacing paragraphs). *)
Theorem X16_docx_keeps_core_output (items : list RawItem) (pageHeight : Z) :
  exists els,
    buildDocElements defaultConfig items pageHeight = Some els /\
    length (buildDocChildren els)
    = (length (filter isParagraphElement els)
       + 3 * length (filter isTableElement els))%nat.
Proof.
  destruct (buildDocElements_paragraphs defaultConfig
              ltac:(simpl; lia) ltac:(simpl; lia) items pageHeight)
    as (els & Hrun & Hpar).
  exists els. split; [exact Hrun|].
  apply children_count.
  - eapply buildDocElements_noBreak, Hrun.
  - intros text h Hin. destruct (Hpar text h Hin) as (Hne & Htrim & _).
    rewrite Htrim. exact Hne.
Qed.

Lemma cellWidth_fits (colCount : nat) :
  (1 <= colCount)%nat ->
  exists w, cellWidth colCount = Some w /\
            (colCount * w <= 100 < colCount * (w + 1))%nat.
Proof.
  intros Hc. unfold cellWidth.
  destruct (Nat.eqb_spec colCount 0); [lia|].
  exists (100 / colCount)%nat. split; [reflexivity|].
  pose proof (Nat.div_mod_eq 100 colCount) as Hdm.
  pose proof (Nat.mod_upper_bound 100 colCount ltac:(lia)) as Hmod.
  nia.
Qed.

Lemma buildTable_fits (rows : list (list string)) (colCount : nat) :
  (1 <= colCount)%nat ->
  Forall (fun row => length row = colCount) rows ->
  length (Table.rows (buildTable rows colCount)) = length rows /\
  Forall (rowFits colCount) (Table.rows (buildTable rows colCount)).
Proof.
  intros Hc Hrect. unfold buildTable. simpl. split; [apply length_map|].
  apply Forall_map. eapply Forall_impl; [|exact Hrect].
  intros row Hlen. unfold rowFits. simpl. split.
  - rewrite length_map. exact Hlen.
  - apply Forall_map, Forall_forall. intros c _. simpl.
    apply cellWidth_fits, Hc.
Qed.

(** X17. For every table that buildDocElements emits, buildTable makes one
    docx row per grid row, each with exactly colCount cells; the width w of
    every cell, in percent, is the largest with colCount * w <= 100, so a row
    never takes more than the whole width. *)
Theorem X17_docx_table_fits (items : list RawItem) (pageHeight : Z) :
  exists els,
    buildDocElements defaultConfig items pageHeight = Some els /\
    forall rows colCount,
      In (table rows colCount) els ->
      length (Table.rows (buildTable rows colCount)) = length rows /\
      Forall (fun row =>
                length (TableRow.children row) = colCount /\
                Forall (fun c =>
                          exists w,
                            TableCell.widthSize c = Some w /\
                            (colCount * w <= 100 < colCount * (w + 1))%nat)
                  (TableRow.children row))
        (Table.rows (buildTable rows colCount)).
Proof.
  destruct (buildDocElements_shape defaultConfig items pageHeight)
    as (els & Hrun & Hshape); [simpl; lia | reflexivity | simpl; lia |].
  exists els. split; [exact Hrun|].
  intros rows colCount Hin.
  rewrite Forall_forall in Hshape. specialize (Hshape _ Hin).
  simpl in Hshape. destruct Hshape as (Hc & _ & Hrect).
  exact (buildTable_fits rows colCount ltac:(lia) Hrect).
Qed.

(** ** Reading the text serialization back *)

Lemma splitLoop_noLF (a rest cur : string) :
  noLF a = true ->
  JsString.splitLoop JsString.LF (a ++ rest)%string cur
  = JsString.splitLoop JsString.LF rest (cur ++ a)%string.
Proof.
  revert cur. induction a as [|c a IH]; intros cur Ha; simpl.
  - rewrite string_app_nil_r. reflexivity.
  - simpl in Ha. apply andb_true_iff in Ha. destruct Ha as [Hc Ha].
    apply negb_true_iff in Hc. rewrite Hc, IH by exact Ha.
    rewrite string_app_assoc. reflexivity.
Qed.

Lemma splitLoop_LF (a b cur : string) :
  JsString.splitLoop JsString.LF (a ++ String JsString.LF b)%string cur
  = JsString.splitLoop JsString.LF a cur
    ++ JsString.splitLoop JsString.LF b EmptyString.
Proof.
  revert cur. induction a as [|c a IH]; intros cur; simpl.
  - reflexivity.
  - destruct (Ascii.eqb c JsString.LF); [rewrite IH; reflexivity | apply IH].
Qed.

Lemma split_app_LF (a b : string) :
  JsString.split JsString.LF (a ++ JsString.newline ++ b)%string
  = JsString.split JsString.LF a ++ JsString.split JsString.LF b.
Proof. apply splitLoop_LF. Qed.

Lemma split_noLF (a : string) :
  noLF a = true -> JsString.split JsString.LF a = [a].
Proof.
  intros Ha. unfold JsString.split.
  rewrite <- (string_app_nil_r a) at 1. rewrite splitLoop_noLF by exact Ha.
  reflexivity.
Qed.

(** Splitting at line feeds undoes joining one-line strings with line
    feeds. *)
Lemma split_concat (ls : list string) :
  ls <> [] -> Forall (fun s => noLF s = true) ls ->
  JsString.split JsString.LF (String.concat JsString.newline ls) = ls.
Proof.
  induction ls as [|s r IH]; [congruence|]. intros _ Hls.
  apply Forall_cons_iff in Hls. destruct Hls as [Hs Hr].
  destruct r as [|s' r'].
  - simpl. apply split_noLF, Hs.
  - change (String.concat JsString.newline (s :: s' :: r'))
      with (s ++ JsString.newline
              ++ String.concat JsString.newline (s' :: r'))%string.
    rewrite split_app_LF, split_noLF by exact Hs.
    rewrite IH by (discriminate || exact Hr). reflexivity.
Qed.

Lemma buildFallbackChildren_map (text : string) :
  buildFallbackChildren text
  = map fallbackChild (JsString.split JsString.LF text).
Proof. reflexivity. Qed.

Lemma plainElement_reads_back (el : DocElement) :
  plainElement el ->
  noLF (renderElement el) = true /\
  [fallbackChild (renderElement el)] = elementChildren el.
Proof.
  destruct el as [text h|rows n|]; simpl; [| intros [] |].
  - intros (Hne & Htrim & Hlf & Hsent & Hh). split; [exact Hlf|].
    unfold fallbackChild. rewrite Htrim.
    destruct (String.eqb_spec text PAGE_BREAK_LINE) as [|_]; [congruence|].
    destruct text; [congruence|]. simpl. rewrite Hh. reflexivity.
  - intros _. split; reflexivity.
Qed.

Lemma fallback_round_trip (elements : list DocElement) :
  elements <> [] -> Forall plainElement elements ->
  buildFallbackChildren (elementsToText elements) = buildDocChildren elements.
Proof.
  intros Hne Hplain.
  rewrite buildFallbackChildren_map, buildDocChildren_flat.
  unfold elementsToText. rewrite join_concat, split_concat.
  - induction Hplain as [|el rest Hel _ IH]; [congruence|].
    simpl. destruct (plainElement_reads_back el Hel) as [_ <-]. simpl.
    f_equal. destruct rest as [|el' rest']; [reflexivity|].
    apply IH. discriminate.
  - destruct elements; [congruence | discriminate].
  - apply Forall_map. eapply Forall_impl; [|exact Hplain].
    intros el Hel. apply (plainElement_reads_back el Hel).
Qed.

(** X18. Round trip through the text serialization: for a list of
    pageBreaks and of paragraphs whose text is non-empty, trimmed, on one
    line, different from the page-break line, and flagged by the inlined
    heading test, the document built from the serialized text alone has the
    same children as the document built from the elements. *)
Theorem X18_text_round_trip (elements : list DocElement) :
  Forall plainElement elements ->
  generateWordDocumentChildren [] (Some (elementsToText elements))
  = generateWordDocumentChildren elements None.
Proof.
  intros Hplain. unfold generateWordDocumentChildren.
  destruct elements as [|el rest]; [reflexivity|].
  simpl length. simpl Nat.ltb. cbv iota.
  apply fallback_round_trip; [discriminate | exact Hplain].
Qed.

(** X18 on a paragraph, a page break and a heading. *)
Lemma X18_text_round_trip_witness :
  Forall plainElement [paragraph "a" false; pageBreak; paragraph "B" true] /\
  generateWordDocumentChildren []
    (Some (elementsToText [paragraph "a" false; pageBreak; paragraph "B" true]))
  = generateWordDocumentChildren
      [paragraph "a" false; pageBreak; paragraph "B" true] None.
Proof.
  assert (Hplain : Forall plainElement
                     [paragraph "a" false; pageBreak; paragraph "B" true]).
  { constructor; [|constructor; [exact I|constructor; [|constructor]]].
    - simpl. repeat split; try reflexivity; discriminate.
    - simpl. repeat split; try reflexivity; discriminate. }
  split; [exact Hplain|].
  exact (X18_text_round_trip _ Hplain).
Defined.

(** *** Scanned documents *)

Lemma noLF_app (a b : string) : noLF (a ++ b)%string = noLF a && noLF b.
Proof.
  induction a as [|c a IH]; simpl; [reflexivity|].
  rewrite IH, andb_assoc. reflexivity.
Qed.

Lemma splitLoop_pieces (s cur : string) :
  noLF cur = true ->
  Forall (fun piece => noLF piece = true)
    (JsString.splitLoop JsString.LF s cur).
Proof.
  revert cur. induction s as [|c r IH]; intros cur Hcur; simpl.
  - constructor; [exact Hcur | constructor].
  - destruct (Ascii.eqb c JsString.LF) eqn:Hc.
    + constructor; [exact Hcur | apply IH; reflexivity].
    + apply IH. rewrite noLF_app, Hcur. simpl. rewrite Hc. reflexivity.
Qed.

Lemma noLF_trimStart (s : string) :
  noLF s = true -> noLF (JsString.trimStart s) = true.
Proof.
  induction s as [|c r IH]; simpl; [auto|]. intros H.
  destruct (JsString.isWhiteSpace c); [|exact H].
  apply andb_true_iff in H. apply IH, H.
Qed.

Lemma noLF_trimEnd (s : string) :
  noLF s = true -> noLF (JsString.trimEnd s) = true.
Proof.
  induction s as [|c r IH]; simpl; [auto|]. intros H.
  apply andb_true_iff in H. destruct H as [Hc Hr]. specialize (IH Hr).
  destruct (JsString.trimEnd r).
  - destruct (JsString.isWhiteSpace c); [reflexivity|].
    simpl. rewrite Hc. reflexivity.
  - simpl in *. rewrite Hc. exact IH.
Qed.

Lemma ocrLines_plain (ocrText line : string) :
  In line (ocrLines ocrText) ->
  line <> EmptyString /\ JsString.trim line = line /\ noLF line = true.
Proof.
  unfold ocrLines. intros Hin. apply filter_In in Hin.
  destruct Hin as [Hin Htruthy]. apply in_map_iff in Hin.
  destruct Hin as (piece & <- & Hpiece).
  split; [|split].
  - intros Hempty. rewrite Hempty in Htruthy. discriminate.
  - apply trim_idem.
  - apply noLF_trimEnd, noLF_trimStart.
    pose proof (splitLoop_pieces ocrText EmptyString eq_refl) as Hall.
    rewrite Forall_forall in Hall. apply Hall, Hpiece.
Qed.

Lemma interleave_plain (n : nat) (contribs : list (list DocElement)) :
  Forall (Forall plainElement) contribs ->
  Forall plainElement (interleave n contribs).
Proof.
  revert n. induction contribs as [|c cs IH]; intros n Hall; [constructor|].
  apply Forall_cons_iff in Hall. destruct Hall as [Hc Hcs].
  simpl. apply Forall_app. split.
  - destruct (1 <? n)%nat; [constructor; [exact I|constructor] | constructor].
  - apply Forall_app. split; [exact Hc | apply IH, Hcs].
Qed.

Lemma scanned_contributions_plain (cfg : Config) (pages : list Page.t)
  (contribs : list (list DocElement)) :
  Forall (fun p => isDigital p = false /\
                   Forall (fun l => l <> PAGE_BREAK_LINE)
                     (ocrLines (Page.ocrText p))) pages ->
  Forall2 (fun p c => pageContribution cfg p = Some c) pages contribs ->
  Forall (Forall plainElement) contribs.
Proof.
  intros Hpages Hf2. induction Hf2 as [|p c ps cs Hc _ IH]; [constructor|].
  apply Forall_cons_iff in Hpages. destruct Hpages as [[Hscan Hlines] Hps].
  constructor; [|apply IH, Hps].
  unfold pageContribution in Hc. rewrite Hscan in Hc. injection Hc as <-.
  apply Forall_map, Forall_forall. intros line Hin.
  destruct (ocrLines_plain _ _ Hin) as (Hne & Htrim & Hlf).
  rewrite Forall_forall in Hlines. specialize (Hlines _ Hin).
  simpl. repeat split; assumption.
Qed.

(** X23. For a document whose pages are all treated as scanned and on which
    no OCR line reads --- Page Break ---, the text that processPdfClientSide
    returns rebuilds, through the fallback path of generateWordDocument, the
    same children as its elements do. *)
Theorem X23_scanned_text_rebuilds (pages : list Page.t) :
  Forall (fun p => isDigital p = false /\
                   Forall (fun l => l <> PAGE_BREAK_LINE)
                     (ocrLines (Page.ocrText p))) pages ->
  exists r,
    processPdfClientSide defaultConfig pages = Some r /\
    generateWordDocumentChildren [] (Some (OcrResult.text r))
    = generateWordDocumentChildren (OcrResult.elements r) None.
Proof.
  intros Hpages. unfold processPdfClientSide.
  destruct (pageLoop_shape defaultConfig ltac:(simpl; lia) pages 1 [] false)
    as (contribs & u & Heq & Hf2).
  rewrite Heq. eexists. split; [reflexivity|].
  simpl OcrResult.text. simpl OcrResult.elements.
  unfold generateWordDocumentChildren.
  destruct (interleave 1 contribs) as [|el rest] eqn:Hels; [reflexivity|].
  simpl length. simpl Nat.ltb. cbv iota.
  apply fallback_round_trip; [discriminate|].
  rewrite <- Hels. apply interleave_plain.
  eapply scanned_contributions_plain; eassumption.
Qed.

(** X23 on two scanned pages. *)
Lemma X23_scanned_text_rebuilds_witness :
  Forall (fun p => isDigital p = false /\
                   Forall (fun l => l <> PAGE_BREAK_LINE)
                     (ocrLines (Page.ocrText p)))
    [scannedPage "a"; scannedPage "B"] /\
  exists r,
    processPdfClientSide defaultConfig [scannedPage "a"; scannedPage "B"]
    = Some r /\
    generateWordDocumentChildren [] (Some (OcrResult.text r))
    = generateWordDocumentChildren (OcrResult.elements r) None.
Proof.
  assert (H : Forall (fun p => isDigital p = false /\
                               Forall (fun l => l <> PAGE_BREAK_LINE)
                                 (ocrLines (Page.ocrText p)))
                [scannedPage "a"; scannedPage "B"]).
  { constructor; [|constructor; [|constructor]].
    - split; [reflexivity|]. constructor; [discriminate | constructor].
    - split; [reflexivity|]. constructor; [discriminate | constructor]. }
  split; [exact H|].
  exact (X23_scanned_text_rebuilds _ H).
Defined.

(* ------------------------------------------------------------------ *)
(** * Properties of the text-only pipeline *)

Lemma pageTextsLoop_texts (pages : list Page.t) :
  forall (pageTexts : list string) (usedOcr : bool),
  fst (Legacy.pageTextsLoop pages pageTexts usedOcr)
  = pageTexts ++ map legacyPageText pages.
Proof.
  induction pages as [|page rest IH]; intros pageTexts usedOcr.
  - simpl. rewrite app_nil_r. reflexivity.
  - cbn -[Nat.leb TEXT_THRESHOLD]. unfold legacyPageText at 1.
    destruct (TEXT_THRESHOLD <=? _)%nat; rewrite IH, <- app_assoc; reflexivity.
Qed.

Lemma markPages_later (pageTexts : list string) (i : nat) :
  Legacy.markPages pageTexts (S i)
  = map (fun t => (PAGE_BREAK_LINE ++ JsString.newline ++ t)%string) pageTexts.
Proof.
  revert i. induction pageTexts as [|t rest IH]; intros i; [reflexivity|].
  simpl. rewrite IH. reflexivity.
Qed.

Lemma sentinelLines_app (a b : string) :
  sentinelLines (a ++ JsString.newline ++ b)%string
  = (sentinelLines a + sentinelLines b)%nat.
Proof.
  unfold sentinelLines. rewrite split_app_LF, filter_app, length_app.
  reflexivity.
Qed.

Lemma sentinelLines_concat (x : string) (ys : list string) :
  sentinelLines
    (String.concat (JsString.newline ++ JsString.newline)%string (x :: ys))
  = (sentinelLines x + list_sum (map sentinelLines ys))%nat.
Proof.
  revert x. induction ys as [|y r IH]; intros x.
  - simpl. lia.
  - change (String.concat (JsString.newline ++ JsString.newline)%string
              (x :: y :: r))
      with (x ++ JsString.newline
              ++ (EmptyString ++ JsString.newline
                    ++ String.concat
                         (JsString.newline ++ JsString.newline)%string
                         (y :: r)))%string.
    rewrite !sentinelLines_app, IH. simpl. reflexivity.
Qed.

Lemma list_sum_cons (a : nat) (l : list nat) :
  list_sum (a :: l) = (a + list_sum l)%nat.
Proof. reflexivity. Qed.

Lemma sentinelLines_marked (ts : list string) :
  list_sum
    (map sentinelLines
       (map (fun t => (PAGE_BREAK_LINE ++ JsString.newline ++ t)%string) ts))
  = (length ts + list_sum (map sentinelLines ts))%nat.
Proof.
  induction ts as [|t r IH]; [reflexivity|].
  rewrite !map_cons, !list_sum_cons, sentinelLines_app, IH.
  change (sentinelLines PAGE_BREAK_LINE) with 1%nat. simpl length. lia.
Qed.

Lemma paragraphsLoop_breaks (lines : list string) :
  forall paragraphs : list Paragraph.t,
  length (filter isBreakParagraph (Legacy.paragraphsLoop lines paragraphs))
  = (length (filter isBreakParagraph paragraphs)
     + length (filter (fun line =>
                         String.eqb (JsString.trim line) PAGE_BREAK_LINE)
                 lines))%nat.
Proof.
  unfold PAGE_BREAK_LINE.
  induction lines as [|line rest IH]; intros paragraphs; simpl.
  - lia.
  - destruct (String.eqb (JsString.trim line) "--- Page Break ---");
      rewrite IH, filter_app, length_app; simpl; lia.
Qed.

(** X19. In the text-only pipeline the document of N >= 1 pages gets one
    page-break paragraph for each page after the first, and one more for
    every line of a page text that itself reads --- Page Break ---. *)
Theorem X19_legacy_page_breaks (first : Page.t) (rest : list Page.t) :
  length
    (filter isBreakParagraph
       (Legacy.generateWordDocumentParagraphs
          (Legacy.OcrResult.text
             (Legacy.processPdfClientSide (first :: rest)))))
  = (length rest
     + list_sum (map sentinelLines (map legacyPageText (first :: rest))))%nat.
Proof.
  unfold Legacy.processPdfClientSide.
  pose proof (pageTextsLoop_texts (first :: rest) [] false) as Htexts.
  destruct (Legacy.pageTextsLoop (first :: rest) [] false) as [pageTexts u].
  simpl in Htexts. subst pageTexts. simpl Legacy.OcrResult.text.
  unfold Legacy.generateWordDocumentParagraphs.
  rewrite paragraphsLoop_breaks. simpl filter at 1. simpl length at 1.
  change (length
            (filter (fun line =>
                       String.eqb (JsString.trim line) PAGE_BREAK_LINE)
               (JsString.split JsString.LF
                  (Legacy.fullText
                     (legacyPageText first :: map legacyPageText rest)))))
    with (sentinelLines
            (Legacy.fullText
               (legacyPageText first :: map legacyPageText rest))).
  unfold Legacy.fullText. rewrite join_concat.
  simpl Legacy.markPages. rewrite markPages_later, sentinelLines_concat,
    sentinelLines_marked, length_map.
  simpl map. simpl list_sum. lia.
Qed.

(* ------------------------------------------------------------------ *)
(** * Properties of the session ids *)

Lemma firstn_firstn_cons {A : Type} (n : nat) (a : A) (l : list A) :
  firstn (S n) (a :: firstn (S n) l) = firstn (S n) (a :: l).
Proof.
  rewrite !firstn_cons. f_equal. rewrite firstn_firstn. f_equal. lia.
Qed.

(** X20. After any sequence of addSessionId calls the stored ids are the 20
    most recent of all ids, newest first: the ids added, last one first,
    followed by the ids stored before, cut at 20. *)
Theorem X20_session_keeps_recent (added : list string) (st : Session.Stored) :
  Session.getSessionIds
    (fold_left (fun s id => Session.addSessionId id s) added st)
  = match added with
    | [] => Session.getSessionIds st
    | _ => firstn 20 (rev added ++ Session.getSessionIds st)
    end.
Proof.
  revert st. induction added as [|id rest IH] using rev_ind; intros st.
  - reflexivity.
  - rewrite fold_left_app. simpl fold_left.
    unfold Session.addSessionId at 1. simpl Session.getSessionIds at 1.
    rewrite IH, rev_app_distr. simpl rev. simpl app.
    destruct (rest ++ [id]) eqn:Habs; [destruct rest; discriminate|].
    destruct rest as [|r0 rest'].
    + reflexivity.
    + apply (firstn_firstn_cons 19).
Qed.

(* ------------------------------------------------------------------ *)
(** * Further properties: normalized items and table cells *)

(** X21. Every item that toPositioned returns has a text that is not blank
    and a height that is not negative, and toPositioned never returns more
    items than it is given. *)
Theorem X21_positioned_items (items : list RawItem) (H : Z) :
  Forall (fun it =>
            JsString.trim (PositionedItem.str it) <> EmptyString /\
            0 <= PositionedItem.height it)
    (toPositioned items H) /\
  (length (toPositioned items H) <= length items)%nat.
Proof.
  unfold toPositioned. rewrite toPositionedLoop_spec. simpl. split.
  - apply Forall_map, Forall_forall. intros item Hin.
    apply filter_In in Hin. destruct Hin as [_ Hnb]. simpl. split; [|lia].
    unfold nonBlank in Hnb. apply negb_true_iff, String.eqb_neq in Hnb.
    exact Hnb.
  - rewrite length_map.
    eapply Nat.le_trans; [apply filter_length_le|].
    induction items as [|[item|ty] rest IH]; simpl; lia.
Qed.

Lemma set_nth {A : Type} (hole d : A) (l : list A) (i k : nat) (v : A) :
  (i < length l)%nat ->
  nth k (JsArray.set hole l i v) d = if (k =? i)%nat then v else nth k l d.
Proof.
  revert i k. induction l as [|a r IH]; intros i k Hi; simpl in Hi; [lia|].
  destruct i as [|i]; destruct k as [|k]; simpl; try reflexivity.
  apply IH. lia.
Qed.

Lemma concat_snoc (sep s : string) (l : list string) :
  String.concat sep (l ++ [s])
  = match l with
    | [] => s
    | _ => (String.concat sep l ++ sep ++ s)%string
    end.
Proof.
  induction l as [|a r IH]; [reflexivity|].
  destruct r as [|b r'].
  - reflexivity.
  - change (String.concat sep ((a :: b :: r') ++ [s]))
      with (a ++ sep ++ String.concat sep ((b :: r') ++ [s]))%string.
    rewrite IH.
    change (String.concat sep (a :: b :: r'))
      with (a ++ sep ++ String.concat sep (b :: r'))%string.
    rewrite !string_app_assoc. reflexivity.
Qed.

Lemma concat_truthy (sep : string) (l : list string) :
  Forall (fun s => s <> EmptyString) l ->
  JsString.truthy (String.concat sep l)
  = match l with [] => false | _ => true end.
Proof.
  destruct l as [|a r]; [reflexivity|]. intros Hl.
  apply Forall_inv in Hl. destruct a as [|c a']; [congruence|].
  destruct r; reflexivity.
Qed.

Section CellFacts.

Variable colBuckets : list Z.
Hypothesis Hne : colBuckets <> [].

(** The texts of the items of [items] whose nearest anchor is anchor [k]. *)
Lemma fold_placeItem_cells (items : list PositionedItem.t) :
  forall (pre : list PositionedItem.t) (cells : list string),
  length cells = length colBuckets ->
  Forall (fun it => PositionedItem.str it <> EmptyString) (pre ++ items) ->
  (forall k, (k < length colBuckets)%nat ->
     nth k cells EmptyString
     = String.concat " "
         (map PositionedItem.str
            (filter (fun it =>
                       (nearestBucket (PositionedItem.x it) colBuckets =? k)%nat)
               pre))) ->
  forall k, (k < length colBuckets)%nat ->
    nth k (fold_left (placeItem colBuckets) items cells) EmptyString
    = String.concat " "
        (map PositionedItem.str
           (filter (fun it =>
                      (nearestBucket (PositionedItem.x it) colBuckets =? k)%nat)
              (pre ++ items))).
Proof.
  induction items as [|item rest IH]; intros pre cells Hlen Hstr Hcells k Hk.
  - simpl. rewrite app_nil_r. apply Hcells, Hk.
  - simpl fold_left.
    replace (pre ++ item :: rest) with ((pre ++ [item]) ++ rest) in *
      by (rewrite <- app_assoc; reflexivity).
    apply IH; [apply placeItem_length; assumption | exact Hstr | | exact Hk].
    clear k Hk. intros k Hk. unfold placeItem.
    pose proof (nearestBucket_bound (PositionedItem.x item) colBuckets Hne)
      as Hcol.
    rewrite set_nth by (rewrite Hlen; exact Hcol).
    rewrite filter_app, map_app. simpl filter.
    rewrite Nat.eqb_sym.
    destruct (Nat.eqb_spec (nearestBucket (PositionedItem.x item) colBuckets) k)
      as [Heq|Hneq].
    + subst k. simpl map. rewrite concat_snoc, Hcells by exact Hcol.
      rewrite concat_truthy.
      * destruct (map PositionedItem.str _); reflexivity.
      * apply Forall_map, Forall_forall. intros it Hit.
        apply filter_In in Hit. destruct Hit as [Hit _].
        rewrite Forall_forall in Hstr. apply Hstr.
        apply in_or_app. left. apply in_or_app. left. exact Hit.
    + simpl. rewrite app_nil_r. apply Hcells, Hk.
Qed.

Lemma tableRow_cells (line : LineGroup.t) (k : nat) :
  Forall (fun it => PositionedItem.str it <> EmptyString)
    (LineGroup.items line) ->
  (k < length colBuckets)%nat ->
  nth k (tableRow colBuckets (length colBuckets) line) EmptyString
  = String.concat " "
      (map PositionedItem.str
         (filter (fun it =>
                    (nearestBucket (PositionedItem.x it) colBuckets =? k)%nat)
            (LineGroup.items line))).
Proof.
  intros Hstr Hk. unfold tableRow.
  apply (fold_placeItem_cells (LineGroup.items line) []); auto.
  - apply repeat_length.
  - intros j Hj. simpl. apply nth_repeat.
Qed.

End CellFacts.

(** X22. In a table row built over a non-empty list of anchors from items
    with non-empty texts, the cell of each column holds the texts of the
    items whose nearest anchor is that column's, in the order of the line,
    joined by single spaces (and is empty when there is none). *)
Theorem X22_table_cells (colBuckets : list Z) (line : LineGroup.t) (k : nat) :
  colBuckets <> [] ->
  Forall (fun it => PositionedItem.str it <> EmptyString)
    (LineGroup.items line) ->
  (k < length colBuckets)%nat ->
  nth k (tableRow colBuckets (length colBuckets) line) EmptyString
  = String.concat " "
      (map PositionedItem.str
         (filter (fun it =>
                    (nearestBucket (PositionedItem.x it) colBuckets =? k)%nat)
            (LineGroup.items line))).
Proof. intros Hne. apply tableRow_cells, Hne. Qed.

(** X22 on the row A, B of the grid, for the column at 150. *)
Lemma X22_table_cells_witness :
  gridAnchors <> [] /\
  Forall (fun it => PositionedItem.str it <> EmptyString)
    (LineGroup.items rowAB) /\
  (1 < length gridAnchors)%nat /\
  nth 1 (tableRow gridAnchors (length gridAnchors) rowAB) EmptyString
  = String.concat " "
      (map PositionedItem.str
         (filter (fun it =>
                    (nearestBucket (PositionedItem.x it) gridAnchors =? 1)%nat)
            (LineGroup.items rowAB))).
Proof.
  assert (Hne : gridAnchors <> []) by (unfold gridAnchors; discriminate).
  assert (Hstr : Forall (fun it => PositionedItem.str it <> EmptyString)
                   (LineGroup.items rowAB)).
  { simpl. constructor; [discriminate|]. constructor; [discriminate|constructor]. }
  assert (Hk : (1 < length gridAnchors)%nat) by (simpl; lia).
  split; [exact Hne|]. split; [exact Hstr|]. split; [exact Hk|].
  exact (X22_table_cells gridAnchors rowAB 1%nat Hne Hstr Hk).
Defined.

(* ------------------------------------------------------------------ *)
(** * Further properties: bounds and empty output *)

(** X24. tryExtractTable returns null when start is past the last line; a
    table it returns is the run of consecutive lines that begins at start,
    has at least MIN_TABLE_ROWS lines and ends within the input. *)
Theorem X24_tryExtractTable_bounds (cfg : Config) (lines : list LineGroup.t)
  (start : nat) :
  ((length lines <= start)%nat -> tryExtractTable cfg lines start = None) /\
  (forall tl,
      tryExtractTable cfg lines start = Some tl ->
      (MIN_TABLE_ROWS cfg <= length tl)%nat /\
      (start + length tl <= length lines)%nat /\
      tl = firstn (length tl) (skipn start lines)).
Proof.
  split.
  - intros Hs. unfold tryExtractTable.
    destruct (Nat.leb_spec (length lines) start); [reflexivity | lia].
  - intros tl Htry.
    destruct (tryExtractTable_Some cfg _ _ _ Htry) as (_ & H1 & H2 & H3 & _).
    auto.
Qed.

Lemma glyphRuns_blank (items : list RawItem) :
  filter nonBlank (glyphRuns items) = [] <->
  Forall (fun raw => match raw with
                     | Text item =>
                         JsString.trim (TextItem.str item) = EmptyString
                     | MarkedContent _ => True
                     end) items.
Proof.
  induction items as [|raw rest IH]; simpl.
  - split; [constructor | reflexivity].
  - rewrite Forall_cons_iff, <- IH. destruct raw as [item|ty]; simpl.
    + unfold nonBlank at 1.
      destruct (String.eqb_spec (JsString.trim (TextItem.str item)) EmptyString)
        as [He|He]; simpl.
      * tauto.
      * split; [discriminate | intros [H _]; congruence].
    + tauto.
Qed.

(** X25. buildDocElements returns the empty list exactly when every item is
    a marker or a run whose text is blank; a single non-blank run is enough
    for at least one element. *)
Theorem X25_empty_output (items : list RawItem) (pageHeight : Z) :
  buildDocElements defaultConfig items pageHeight = Some [] <->
  Forall (fun raw => match raw with
                     | Text item =>
                         JsString.trim (TextItem.str item) = EmptyString
                     | MarkedContent _ => True
                     end) items.
Proof.
  rewrite <- glyphRuns_blank. split.
  - intros Hrun.
    destruct (filter nonBlank (glyphRuns items)) as [|it r] eqn:Hf;
      [reflexivity|].
    exfalso.
    eapply (buildDocElements_nonempty defaultConfig ltac:(simpl; lia));
      [|exact Hrun|reflexivity].
    unfold toPositioned. rewrite toPositionedLoop_spec, Hf. discriminate.
  - intros Hf. unfold buildDocElements, toPositioned.
    rewrite toPositionedLoop_spec, Hf. reflexivity.
Qed.

(* ------------------------------------------------------------------ *)
(** * Normalization and heading detection, stated without the built-ins *)

(** ** The built-in trim against the listed whitespace *)

Lemma isWhiteCode_eq (c : ascii) : isWhiteCode c = JsString.isWhiteSpace c.
Proof. destruct c as [[] [] [] [] [] [] [] []]; reflexivity. Qed.

Lemma blankText_allWhite (s : string) : blankText s = allWhite s.
Proof.
  unfold blankText. induction s as [|c r IH]; simpl; [reflexivity|].
  rewrite isWhiteCode_eq, IH. reflexivity.
Qed.

(** trim gives the empty string exactly on the blank texts. *)
Lemma trim_blank (s : string) :
  String.eqb (JsString.trim s) EmptyString = blankText s.
Proof.
  rewrite blankText_allWhite.
  destruct (String.eqb_spec (JsString.trim s) EmptyString) as [He|He].
  - symmetry. apply trim_empty, He.
  - destruct (allWhite s) eqn:Hw; [|reflexivity].
    apply trim_empty in Hw. congruence.
Qed.











(** C5. toPositioned drops every marker and every run whose text consists of
    whitespace only (the empty text included; whitespace being TAB, LF, VT,
    FF, CR, SPACE and NO-BREAK SPACE); each kept run, in input order, gets
    x = transform[4], y = H - transform[5] - |height|, height = |height|,
    and keeps its width, its text (padding included) and its font name. *)
Theorem C5_toPositioned_normalizes :
  (forall (items : list RawItem) (H : Z),
      toPositioned items H
      = map (fun item =>
               {| PositionedItem.str := TextItem.str item;
                  PositionedItem.x := translateX (TextItem.transform item);
                  PositionedItem.y :=
                    H - translateY (TextItem.transform item)
                      - Z.abs (TextItem.height item);
                  PositionedItem.width := TextItem.width item;
                  PositionedItem.height := Z.abs (TextItem.height item);
                  PositionedItem.fontName := TextItem.fontName item |})
            (filter (fun item =>
                       negb (forallb
                               (fun c =>
                                  existsb (Nat.eqb (nat_of_ascii c))
                                    [9; 10; 11; 12; 13; 32; 160]%nat)
                               (list_ascii_of_string (TextItem.str item))))
                    (glyphRuns items))) /\
  toPositioned
    [glyph 10 700 "   "; MarkedContent "beginMarkedContent";
     glyph 10 700 (NBSP ++ JsString.tab ++ JsString.newline)%string;
     glyph 10 700 ""; flippedRun; glyph 60 700 "c"]
    842
  = [ {| PositionedItem.str := " a b ";
         PositionedItem.x := 20;
         PositionedItem.y := 130;
         PositionedItem.width := 30;
         PositionedItem.height := 12;
         PositionedItem.fontName := "g_d0_f2" |};
      {| PositionedItem.str := "c";
         PositionedItem.x := 60;
         PositionedItem.y := 132;
         PositionedItem.width := 5;
         PositionedItem.height := 10;
         PositionedItem.fontName := "g_d0_f1" |} ].
Proof.
  split; [|reflexivity].
  intros items H. unfold toPositioned. rewrite toPositionedLoop_spec. simpl app.
  f_equal. apply filter_ext. intros item. unfold nonBlank.
  rewrite trim_blank. reflexivity.
Qed.

(** ** Upper-casing of ASCII text *)







